(** * sheriff: group- and version-filtered marshalling of Go values

    A shallow embedding of [sheriff.go] and [group_set.go].

    Go values are seen the way the walker sees them, through [reflect]:
    a value has a kind, a method set (which of the interfaces tested by
    [marshalValue] its dynamic type implements) and, for composite kinds,
    its parts.  The walker itself is a pair of mutually recursive
    functions that mutate one shared [groupSet] (the parents set) in
    place; here that set is threaded through every call, and every call
    returns the set as it left it. *)

From Stdlib Require Import ZArith Lia List Bool String Ascii Permutation.
From stdpp Require Import base option list gmap strings fin_maps.

Set Warnings "-register-all".

Local Open Scope string_scope.
Local Open Scope Z_scope.

(** ** reflect: kinds, types and values *)

Module reflect.

(** [reflect.Kind].  The kinds of the values that have no parts the
    walker looks into come first, as a type of their own. *)
Inductive BasicKind : Set :=
  | Bool
  | Int | Int8 | Int16 | Int32 | Int64
  | Uint | Uint8 | Uint16 | Uint32 | Uint64 | Uintptr
  | Float32 | Float64 | Complex64 | Complex128
  | Array | Chan | Func | String | UnsafePointer.

Inductive Kind : Set :=
  | Invalid
  | Basic (k : BasicKind)
  | Interface | Map | Ptr | Slice | Struct.

Coercion Basic : BasicKind >-> Kind.

#[global] Instance BasicKind_eq_dec : EqDecision BasicKind.
Proof. solve_decision. Defined.

#[global] Instance Kind_eq_dec : EqDecision Kind.
Proof. solve_decision. Defined.

(** The interfaces [marshalValue] tests a value against:
    [sheriff.Marshaller], then [json.Marshaler], [encoding.TextMarshaler]
    and [fmt.Stringer]. *)
Record MethodSet : Set := {
  implMarshaller : bool;
  implJSONMarshaler : bool;
  implTextMarshaler : bool;
  implStringer : bool
}.

Definition noMethods : MethodSet :=
  {| implMarshaller := false; implJSONMarshaler := false;
     implTextMarshaler := false; implStringer := false |}.

(** What a value of a non-composite kind holds, and what a map key holds. *)
Inductive Payload : Set :=
  | PBool (b : bool)
  | PInt (z : Z)
  | PStr (s : string)
  | POther (zero : bool).

#[global] Instance Payload_eq_dec : EqDecision Payload.
Proof. solve_decision. Defined.

(** [reflect.StructField]: [Exported] is [PkgPath == ""], [Tag] holds the
    key/value pairs of the struct tag. *)
Record StructField : Set := {
  Name : string;
  Exported : bool;
  Anonymous : bool;
  Tag : list (string * string)
}.

(** [field.Tag.Get(key)]: the value of the first pair under [key], the
    empty string when there is none. *)
Fixpoint Tag_Get (tag : list (string * string)) (key : string) : string :=
  match tag with
  | [] => ""
  | (k, v) :: rest => if bool_decide (k = key) then v else Tag_Get rest key
  end.

(** [reflect.Type], as far as the walker looks at it: its kind, the
    element type of a pointer type and the fields of a struct type. *)
Inductive Type_ : Set :=
  | StructType (fields : list StructField)
  | PtrType (elem : Type_)
  | OtherType (k : Kind).

Definition Type_Kind (t : Type_) : Kind :=
  match t with StructType _ => Struct | PtrType _ => Ptr | OtherType k => k end.

(** [t.Elem()] of a pointer type. *)
Definition Type_Elem (t : Type_) : Type_ :=
  match t with PtrType elem => elem | _ => OtherType Invalid end.

(** The fields [t.Field(0)], ..., [t.Field(t.NumField()-1)]. *)
Definition Type_Fields (t : Type_) : list StructField :=
  match t with StructType fs => fs | _ => [] end.

(** The key type of a map: its kind, and whether it is the predeclared
    [string] (the only type for which [key.Interface().(string)] holds). *)
Record KeyType : Set := { keyKind : Kind; keyIsString : bool }.

(** Go values.  [Scalar] stands for the values of every basic kind.  The
    entries of a [MapVal] are listed in an arbitrary order that carries no
    meaning (a Go map has none); the order in which a program sees them is
    chosen by the runtime at every [MapKeys] call.  [IfaceVal] is a slot
    of interface type (a field, an element), holding a dynamic value or
    nil.  Values are trees: the walker does not detect cycles and the
    package documents none as supported. *)
Inductive GoValue : Set :=
  | Scalar (ms : MethodSet) (k : BasicKind) (p : Payload)
  | Pointer (ms : MethodSet) (pointee : GoValue)
  | NilPointer (ms : MethodSet) (elem : Type_)
  | StructVal (ms : MethodSet) (fields : list (StructField * GoValue))
  | SliceVal (ms : MethodSet) (elems : list GoValue)
  | MapVal (ms : MethodSet) (kt : KeyType) (entries : list (Payload * GoValue))
  | IfaceVal (dyn : option GoValue).

(** A Go [interface{}]: nil, or a dynamic value. *)
Abbreviation iface := (option GoValue).

Definition methods (g : GoValue) : MethodSet :=
  match g with
  | Scalar ms _ _ | Pointer ms _ | NilPointer ms _ | StructVal ms _
  | SliceVal ms _ | MapVal ms _ _ => ms
  | IfaceVal _ => noMethods
  end.

Definition kindOf (g : GoValue) : Kind :=
  match g with
  | Scalar _ k _ => Basic k
  | Pointer _ _ | NilPointer _ _ => Ptr
  | StructVal _ _ => Struct
  | SliceVal _ _ => Slice
  | MapVal _ _ _ => Map
  | IfaceVal _ => Interface
  end.

Fixpoint typeOf (g : GoValue) : Type_ :=
  match g with
  | Scalar _ k _ => OtherType (Basic k)
  | Pointer _ pointee => PtrType (typeOf pointee)
  | NilPointer _ elem => PtrType elem
  | StructVal _ fields => StructType (map fst fields)
  | SliceVal _ _ => OtherType Slice
  | MapVal _ _ _ => OtherType Map
  | IfaceVal _ => OtherType Interface
  end.

(** [reflect.Value]: the zero Value, or a handle on a Go value.  [ro] is
    set when the handle was obtained through an unexported struct field
    and is inherited by the handles obtained from it; [CanInterface] is
    its negation.  A handle made by [ValueOf] does not carry it. *)
Inductive Value : Set :=
  | Zero
  | Val (ro : bool) (g : GoValue).

Definition ValueOf (data : iface) : Value :=
  match data with None => Zero | Some g => Val false g end.

Definition IsValid (v : Value) : bool :=
  match v with Zero => false | Val _ _ => true end.

Definition CanInterface (v : Value) : bool :=
  match v with Zero => false | Val ro _ => negb ro end.

Definition Value_Kind (v : Value) : Kind :=
  match v with Zero => Invalid | Val _ g => kindOf g end.

(** [v.Type()]; panics ([None]) on the zero Value. *)
Definition Value_Type (v : Value) : option Type_ :=
  match v with Zero => None | Val _ g => Some (typeOf g) end.

(** [v.Elem()] of a pointer: the zero Value for a nil pointer. *)
Definition Elem (v : Value) : Value :=
  match v with
  | Val ro (Pointer _ pointee) => Val ro pointee
  | _ => Zero
  end.

(** [v.Interface()]; panics ([None]) on the zero Value.  A slot of
    interface type yields the dynamic value it holds. *)
Definition Value_Interface (v : Value) : option iface :=
  match v with
  | Zero => None
  | Val _ (IfaceVal dyn) => Some dyn
  | Val _ g => Some (Some g)
  end.

(** [v.Field(i)] of a struct; panics ([None]) when [v] is not a struct
    with a field [i]. *)
Definition Field (v : Value) (i : nat) : option Value :=
  match v with
  | Val ro (StructVal _ fields) =>
      match nth_error fields i with
      | Some (f, x) => Some (Val (ro || negb (Exported f)) x)
      | None => None
      end
  | _ => None
  end.

(** The Values [v.Index(0)], ..., [v.Index(v.Len()-1)] of a slice. *)
Definition Indexes (v : Value) : list Value :=
  match v with
  | Val ro (SliceVal _ elems) => map (Val ro) elems
  | _ => []
  end.

End reflect.

Coercion reflect.Basic : reflect.BasicKind >-> reflect.Kind.

Abbreviation iface := (option reflect.GoValue).

(** ** Results *)

(** The generic tree handed back to the caller as an [interface{}]: nil, a
    Go value passed through unchanged, a [[]interface{}] or a
    [map[string]interface{}]. *)
Inductive Node : Type :=
  | NNil
  | NVal (g : reflect.GoValue)
  | NSlice (elems : list Node)
  | NMap (entries : gmap string Node).

Definition ofIface (val : iface) : Node :=
  match val with None => NNil | Some g => NVal g end.

(** Go [error] values that can come out of a call: the package's own
    [MarshalInvalidTypeError], or an error made elsewhere (by the version
    library, by a [Marshaller] of the caller), identified by its message. *)
Inductive error : Type :=
  | MarshalInvalidTypeError (t : reflect.Kind) (data : iface)
  | ErrorString (msg : string).

Inductive PanicReason : Set :=
  | ZeroValueType        (* reflect: call of Value.Type on zero Value *)
  | ZeroValueField       (* reflect: call of Value.Field on zero Value *)
  | ZeroValueInterface   (* reflect: call of Value.Interface on zero Value *)
  | NilVersion           (* nil pointer dereference in Version.Compare *)
  | KeyNotString         (* interface conversion: key is not string *)
  | InDelegate.          (* a panic raised by a Marshaller of the caller *)

(** How a call ends: [(x, nil)], [(nil, err)], a panic, or (for the
    embedding only) recursion cut off by lack of fuel. *)
Inductive outcome (A : Type) : Type :=
  | Return (a : A)
  | Fail (e : error)
  | Panic (why : PanicReason)
  | OutOfFuel.

Arguments Return {A} a.
Arguments Fail {A} e.
Arguments Panic {A} why.
Arguments OutOfFuel {A}.

Definition returned {A} (o : outcome A) : Prop :=
  match o with Return _ | Fail _ => True | _ => False end.

(** ** group_set.go *)

(** [type groupSet map[string]int].  A key that was written stays in the
    map, also with count 0; [len] counts it. *)
Abbreviation groupSet := (gmap string Z).

(** Go's [int] on the 64-bit targets: two's complement wrap-around. *)
Definition wrap_int (z : Z) : Z := (z + 2 ^ 63) mod 2 ^ 64 - 2 ^ 63.

(** [s[group]] read: the zero value for a missing key. *)
Definition count (s : groupSet) (group : string) : Z := default 0 (s !! group).

Fixpoint incrementGroups (s : groupSet) (groups : list string) : groupSet :=
  match groups with
  | [] => s
  | g :: rest => incrementGroups (<[g := wrap_int (count s g + 1)]> s) rest
  end.

Fixpoint decrementGroups (s : groupSet) (groups : list string) : groupSet :=
  match groups with
  | [] => s
  | g :: rest => decrementGroups (<[g := wrap_int (count s g - 1)]> s) rest
  end.

Definition contains (s : groupSet) (group : string) : bool := 0 <? count s group.

Fixpoint containsAny (s : groupSet) (groups : list string) : bool :=
  match groups with
  | [] => false
  | g :: rest => if contains s g then true else containsAny s rest
  end.

(** [len(s)]. *)
Definition len (s : groupSet) : nat := size s.

(** ** What the walker consumes from outside the package *)

(** [github.com/hashicorp/go-version]: [NewVersion] returns a version or
    an error (its message), [LessThan] and [GreaterThan] compare a non-nil
    receiver with a version. *)
Class VersionLib : Type := {
  Version : Type;
  NewVersion : string -> Version + string;
  LessThan : Version -> Version -> bool;
  GreaterThan : Version -> Version -> bool
}.

(** [type Options struct]; [ApiVersion] is a pointer and may be nil. *)
Record Options `{VersionLib} : Type := {
  Groups : list string;
  ApiVersion : option Version;
  OutputFieldsWithNoGroup : bool;
  InheritGroups : bool
}.

(** The [Marshal(options)] methods of the caller's types that implement
    [Marshaller], as functions of the receiver and the options; a method
    that returns an error is taken to return nothing else. *)
Class Marshallers `{VersionLib} : Type := {
  Marshaller_Marshal : reflect.GoValue -> Options -> outcome Node;
  Marshaller_terminates : forall g options, Marshaller_Marshal g options <> OutOfFuel
}.

(** The Go runtime: [MapKeys] lists the entries of a map in the order in
    which [v.MapKeys()] hands out their keys, an order the language leaves
    unspecified. *)
Class Runtime : Type := {
  MapKeys : list (reflect.Payload * reflect.GoValue) ->
            list (reflect.Payload * reflect.GoValue);
  MapKeys_Permutation : forall entries, Permutation (MapKeys entries) entries
}.

(** [strings.Split(s, ",")]. *)
Fixpoint Split_comma (s : string) : list string :=
  match s with
  | EmptyString => [EmptyString]
  | String c rest =>
      if bool_decide (c = ","%char) then EmptyString :: Split_comma rest
      else match Split_comma rest with
           | hd :: tl => String c hd :: tl
           | [] => [String c EmptyString]
           end
  end.

(** Modelled from the spec: [parseTag] is declared in a file of the
    package that is not part of the sources at hand.  It splits the naming
    tag into the name (up to the first comma) and the modifiers that
    follow it. *)
Definition parseTag (tag : string) : string * list string :=
  match Split_comma tag with
  | name :: opts => (name, opts)
  | [] => (tag, [])
  end.

(** Modelled from the spec: [tagOptions.Contains], missing like
    [parseTag]; whether a modifier is set on the naming tag. *)
Definition Contains (opts : list string) (optionName : string) : bool :=
  existsb (fun o => bool_decide (o = optionName)) opts.

(** Modelled from the spec: [isEmptyValue], missing like [parseTag]; the
    zero/empty value of a type is the empty sequence, mapping or string,
    the zero number, false, and the nil reference. *)
Definition isEmptyValue (v : reflect.Value) : bool :=
  match v with
  | reflect.Zero => false
  | reflect.Val _ g =>
      match g with
      | reflect.Scalar _ _ (reflect.PBool b) => negb b
      | reflect.Scalar _ _ (reflect.PInt z) => bool_decide (z = 0)
      | reflect.Scalar _ _ (reflect.PStr s) => bool_decide (s = "")
      | reflect.Scalar _ _ (reflect.POther zero) => zero
      | reflect.Pointer _ _ => false
      | reflect.NilPointer _ _ => true
      | reflect.StructVal _ _ => false
      | reflect.SliceVal _ elems => bool_decide (elems = [])
      | reflect.MapVal _ _ entries => bool_decide (entries = [])
      | reflect.IfaceVal dyn => bool_decide (dyn = None)
      end
  end.

(** ** sheriff.go *)

Section Walker.
Context `{VL : VersionLib} {MS : Marshallers} {RT : Runtime}.

(** A call that runs on the shared parents set: the result, and the set
    as the call left it. *)
Definition run (A : Type) : Type := outcome A * groupSet.

(** Sequencing: a call that did not return normally ends the caller, as
    [if err != nil { return nil, err }] and an unwinding panic do. *)
Definition andThen {A B : Type} (r : run A) (k : A -> groupSet -> run B) : run B :=
  match r with
  | (Return a, parents) => k a parents
  | (Fail e, parents) => (Fail e, parents)
  | (Panic why, parents) => (Panic why, parents)
  | (OutOfFuel, parents) => (OutOfFuel, parents)
  end.

(** The signature of [marshalValue], [groups] being read only. *)
Definition walker : Type :=
  Options -> reflect.Value -> groupSet -> groupSet -> bool -> run Node.

(** *** One field of [marshalObject]'s loop, line by line *)

(** [jsonTag] after the fall-back to the field name. *)
Definition jsonTag (field : reflect.StructField) : string :=
  let (jsonTag, _) := parseTag (reflect.Tag_Get (reflect.Tag field) "json") in
  if bool_decide (jsonTag = "") then reflect.Name field else jsonTag.

Definition jsonOpts (field : reflect.StructField) : list string :=
  snd (parseTag (reflect.Tag_Get (reflect.Tag field) "json")).

(** The three [continue] statements. *)
Definition skipped (field : reflect.StructField) (val : reflect.Value) : bool :=
  if bool_decide (jsonTag field = "-") then true
  else if Contains (jsonOpts field) "omitempty" && isEmptyValue val then true
  else if negb (reflect.IsValid val) || negb (reflect.CanInterface val) then true
  else false.

(** [if val.Kind() == reflect.Ptr { val = val.Elem() }]. *)
Definition followPointer (val : reflect.Value) : reflect.Value :=
  if bool_decide (reflect.Value_Kind val = reflect.Ptr) then reflect.Elem val else val.

Definition isEmbeddedField (field : reflect.StructField) (val : reflect.Value) : bool :=
  reflect.Anonymous field && bool_decide (reflect.Value_Kind val = reflect.Struct).

Definition checkGroups (options : Options) (parents : groupSet) : bool :=
  (0 <? length (Groups options))%nat
  || (InheritGroups options && (0 <? len parents)%nat)
  || OutputFieldsWithNoGroup options.

(** The groups a field declares in its [groups] tag. *)
Definition declaredGroups (field : reflect.StructField) : list string :=
  let tag := reflect.Tag_Get (reflect.Tag field) "groups" in
  if negb (bool_decide (tag = "")) then Split_comma tag else [].

(** The variable [groupNames]: nil until the [if checkGroups] block
    assigns it. *)
Definition groupNames (options : Options) (parents : groupSet)
    (field : reflect.StructField) : list string :=
  if checkGroups options parents then declaredGroups field else [].

Definition shouldShowFromGroup (options : Options) (groups parents : groupSet)
    (embeddedParents : bool) (field : reflect.StructField)
    (isEmbeddedField : bool) : bool :=
  if checkGroups options parents then
    let groupNames := declaredGroups field in
    let hasExactMatch := containsAny groups groupNames in
    let hasParentMatch :=
      if InheritGroups options then containsAny parents (Groups options)
      else if embeddedParents && (length groupNames =? 0)%nat
           then containsAny parents (Groups options)
           else false in
    let hasNoGroup := (length groupNames =? 0)%nat in
    hasExactMatch || hasParentMatch
    || (hasNoGroup && OutputFieldsWithNoGroup options) || isEmbeddedField
  else true.

(** The [since] and [until] blocks: nothing to do for an empty tag, an
    error when the tag does not parse, a nil dereference when it parses
    and [options.ApiVersion] is nil; [hides] is [LessThan] for [since] and
    [GreaterThan] for [until]. *)
Definition versionCheck (hides : Version -> Version -> bool)
    (options : Options) (tag : string) : outcome bool :=
  if negb (bool_decide (tag = "")) then
    match NewVersion tag with
    | inr msg => Fail (ErrorString msg)
    | inl tagVersion =>
        match ApiVersion options with
        | None => Panic NilVersion
        | Some apiVersion => Return (negb (hides apiVersion tagVersion))
        end
    end
  else Return true.

Definition shouldShowFromSince (options : Options)
    (field : reflect.StructField) : outcome bool :=
  versionCheck LessThan options (reflect.Tag_Get (reflect.Tag field) "since").

Definition shouldShowFromUntil (options : Options)
    (field : reflect.StructField) : outcome bool :=
  versionCheck GreaterThan options (reflect.Tag_Get (reflect.Tag field) "until").

(** The parents set handed to the recursion, and the set after the
    recursion handed it back. *)
Definition pushParents (options : Options) (parents : groupSet)
    (isEmbeddedField : bool) (groupNames : list string) : groupSet :=
  if InheritGroups options || isEmbeddedField
  then incrementGroups parents groupNames else parents.

Definition popParents (options : Options) (parents : groupSet)
    (isEmbeddedField : bool) (groupNames : list string) : groupSet :=
  if InheritGroups options || isEmbeddedField
  then decrementGroups parents groupNames else parents.

(** [v.(map[string]interface{})]. *)
Definition asMap (v : Node) : option (gmap string Node) :=
  match v with NMap nestedVal => Some nestedVal | _ => None end.

(** [for k, v := range nestedVal { dest[k] = v }]. *)
Definition mergeInto (dest nestedVal : gmap string Node) : gmap string Node :=
  map_fold (fun k v dest => <[k := v]> dest) dest nestedVal.

(** The last block of the loop body: what becomes of [dest]. *)
Definition store (dest : gmap string Node) (jsonTag : string)
    (isEmbeddedField shown : bool) (v : Node) : gmap string Node :=
  if shown then
    match asMap v with
    | Some nestedVal =>
        if isEmbeddedField then mergeInto dest nestedVal else <[jsonTag := v]> dest
    | None => <[jsonTag := v]> dest
    end
  else dest.

(** The loop body for [field] with [val := v.Field(i)]. *)
Definition marshalField (marshalValue : walker) (options : Options)
    (groups : groupSet) (embeddedParents : bool)
    (field : reflect.StructField) (val : reflect.Value)
    (dest : gmap string Node) (parents : groupSet) : run (gmap string Node) :=
  if skipped field val then (Return dest, parents)
  else
    let val := followPointer val in
    let isEmbeddedField := isEmbeddedField field val in
    let groupNames := groupNames options parents field in
    let shouldShowFromGroup :=
      shouldShowFromGroup options groups parents embeddedParents field isEmbeddedField in
    andThen (shouldShowFromSince options field, parents) (fun shouldShowFromSince parents =>
    andThen (shouldShowFromUntil options field, parents) (fun shouldShowFromUntil parents =>
    let parents := pushParents options parents isEmbeddedField groupNames in
    match marshalValue options val groups parents isEmbeddedField with
    | (Panic why, parents) => (Panic why, parents)
    | (OutOfFuel, parents) => (OutOfFuel, parents)
    | (Fail err, parents) =>
        (Fail err, popParents options parents isEmbeddedField groupNames)
    | (Return v, parents) =>
        (Return (store dest (jsonTag field) isEmbeddedField
                   (shouldShowFromGroup && shouldShowFromSince && shouldShowFromUntil) v),
         popParents options parents isEmbeddedField groupNames)
    end)).

(** [for i := 0; i < t.NumField(); i++]: [fields] are the fields of [t]
    from index [i] on. *)
Fixpoint marshalFields (marshalValue : walker) (options : Options)
    (groups : groupSet) (embeddedParents : bool) (v : reflect.Value)
    (fields : list reflect.StructField) (i : nat)
    (dest : gmap string Node) (parents : groupSet) : run (gmap string Node) :=
  match fields with
  | [] => (Return dest, parents)
  | field :: rest =>
      match reflect.Field v i with
      | None => (Panic ZeroValueField, parents)
      | Some val =>
          andThen
            (marshalField marshalValue options groups embeddedParents field val dest parents)
            (marshalFields marshalValue options groups embeddedParents v rest (S i))
      end
  end.

(** [marshalObject], with the [marshalValue] it calls as a parameter. *)
Definition marshalObjectWith (marshalValue : walker) (options : Options)
    (data : iface) (groups parents : groupSet) (embeddedParents : bool) : run Node :=
  let v := reflect.ValueOf data in
  match reflect.Value_Type v with
  | None => (Panic ZeroValueType, parents)
  | Some t =>
      let t := if bool_decide (reflect.Type_Kind t = reflect.Ptr)
               then reflect.Type_Elem t else t in
      let v := if bool_decide (reflect.Value_Kind v = reflect.Ptr)
               then reflect.Elem v else v in
      if negb (bool_decide (reflect.Type_Kind t = reflect.Struct))
      then marshalValue options v groups parents false
      else
        andThen
          (marshalFields marshalValue options groups embeddedParents v
             (reflect.Type_Fields t) 0 ∅ parents)
          (fun dest parents => (Return (NMap dest), parents))
  end.

(** The slice loop of [marshalValue]. *)
Fixpoint marshalElems (marshalValue : walker) (options : Options)
    (groups : groupSet) (embeddedParents : bool)
    (elems : list reflect.Value) (parents : groupSet) : run (list Node) :=
  match elems with
  | [] => (Return [], parents)
  | elem :: rest =>
      andThen (marshalValue options elem groups parents embeddedParents) (fun d parents =>
      andThen (marshalElems marshalValue options groups embeddedParents rest parents)
        (fun dest parents => (Return (d :: dest), parents)))
  end.

(** [key.Interface().(string)]. *)
Definition keyString (kt : reflect.KeyType) (key : reflect.Payload) : option string :=
  match key with
  | reflect.PStr s => if reflect.keyIsString kt then Some s else None
  | _ => None
  end.

(** The map loop of [marshalValue], over the entries in [MapKeys] order;
    [ro] is the flag of the map's handle, inherited by [v.MapIndex(key)]. *)
Fixpoint marshalEntries (marshalValue : walker) (options : Options)
    (groups : groupSet) (embeddedParents : bool)
    (kt : reflect.KeyType) (ro : bool)
    (entries : list (reflect.Payload * reflect.GoValue))
    (dest : gmap string Node) (parents : groupSet) : run (gmap string Node) :=
  match entries with
  | [] => (Return dest, parents)
  | (key, x) :: rest =>
      andThen (marshalValue options (reflect.Val ro x) groups parents embeddedParents)
        (fun d parents =>
           match keyString kt key with
           | None => (Panic KeyNotString, parents)
           | Some k =>
               marshalEntries marshalValue options groups embeddedParents kt ro rest
                 (<[k := d]> dest) parents
           end)
  end.

(** [val.(Marshaller)]. *)
Definition asMarshaller (val : iface) : option reflect.GoValue :=
  match val with
  | Some g => if reflect.implMarshaller (reflect.methods g) then Some g else None
  | None => None
  end.

(** [case json.Marshaler, encoding.TextMarshaler, fmt.Stringer]. *)
Definition marshalsItself (val : iface) : bool :=
  match val with
  | Some g =>
      let ms := reflect.methods g in
      reflect.implJSONMarshaler ms || reflect.implTextMarshaler ms
      || reflect.implStringer ms
  | None => false
  end.

(** [marshalValue]; every call costs one unit of [fuel], and a value of
    height below the fuel never exhausts it ([marshalValue_fuel]). *)
Fixpoint marshalValue (fuel : nat) (options : Options) (v : reflect.Value)
    (groups parents : groupSet) (embeddedParents : bool) {struct fuel} : run Node :=
  match fuel with
  | O => (OutOfFuel, parents)
  | S fuel =>
      if negb (reflect.IsValid v) || negb (reflect.CanInterface v)
      then (Return NNil, parents)
      else
        match reflect.Value_Interface v with
        | None => (Panic ZeroValueInterface, parents)
        | Some val =>
            match asMarshaller val with
            | Some marshaller => (Marshaller_Marshal marshaller options, parents)
            | None =>
            if marshalsItself val then (Return (ofIface val), parents)
            else
              let k := reflect.Value_Kind v in
              let followed :=
                if bool_decide (k = reflect.Ptr) then
                  let v := reflect.Elem v in
                  match reflect.Value_Interface v with
                  | None => None
                  | Some val => Some (v, val, reflect.Value_Kind v)
                  end
                else Some (v, val, k) in
              match followed with
              | None => (Panic ZeroValueInterface, parents)
              | Some (v, val, k) =>
                  if bool_decide (k = reflect.Interface) || bool_decide (k = reflect.Struct)
                  then marshalObjectWith (marshalValue fuel) options val
                         groups parents embeddedParents
                  else if bool_decide (k = reflect.Slice) then
                    andThen
                      (marshalElems (marshalValue fuel) options groups embeddedParents
                         (reflect.Indexes v) parents)
                      (fun dest parents => (Return (NSlice dest), parents))
                  else if bool_decide (k = reflect.Map) then
                    match v with
                    | reflect.Val ro (reflect.MapVal _ kt entries) =>
                        let mapKeys := MapKeys entries in
                        match mapKeys with
                        | [] => (Return NNil, parents)
                        | _ :: _ =>
                            if negb (bool_decide (reflect.keyKind kt = reflect.String))
                            then (Fail (MarshalInvalidTypeError (reflect.keyKind kt) val),
                                  parents)
                            else
                              andThen
                                (marshalEntries (marshalValue fuel) options groups
                                   embeddedParents kt ro mapKeys ∅ parents)
                                (fun dest parents => (Return (NMap dest), parents))
                        end
                    | _ => (Return (ofIface val), parents) (* no other value of kind Map *)
                    end
                  else (Return (ofIface val), parents)
              end
            end
        end
  end.

Definition marshalObject (fuel : nat) : Options -> iface -> groupSet ->
    groupSet -> bool -> run Node :=
  marshalObjectWith (marshalValue fuel).

(** [Marshal], for a non-nil [options]: the result, the two sets being
    dropped on return. *)
Definition Marshal (fuel : nat) (options : Options) (data : iface) : outcome Node :=
  let groups := incrementGroups ∅ (Groups options) in
  let parents := (∅ : groupSet) in
  fst (marshalObject fuel options data groups parents false).

End Walker.


(** ** The list helpers of sheriff.go *)

(** [contains] and [listContains], the package-level functions at the end
    of [sheriff.go]; the module keeps them apart from the method
    [groupSet.contains]. *)
Module sheriff.

Fixpoint contains (key : string) (list : list string) : bool :=
  match list with
  | [] => false
  | innerKey :: rest => if bool_decide (key = innerKey) then true else contains key rest
  end.

Fixpoint listContains (a b : list string) : bool :=
  match a with
  | [] => false
  | key :: rest => if contains key b then true else listContains rest b
  end.

End sheriff.

(** ** Vocabulary of the specification *)

(** A group is active in a set iff its count is positive. *)
Definition active (s : groupSet) (group : string) : Prop := 0 < count s group.

(** Some name of [names] is active in [s]. *)
Definition intersects (names : list string) (s : groupSet) : Prop :=
  exists group, group ∈ names /\ active s group.

(** Every count of the set is a Go [int]. *)
Definition in_range (s : groupSet) : Prop :=
  forall group z, s !! group = Some z -> - 2 ^ 63 <= z < 2 ^ 63.

(** How often [group] occurs in [names]. *)
Fixpoint occurrences (group : string) (names : list string) : Z :=
  match names with
  | [] => 0
  | g :: rest =>
      (if bool_decide (g = group) then 1 else 0) + occurrences group rest
  end.

(** [parents'] holds Go [int]s, and the same counts as [parents]. *)
Definition balanced (parents parents' : groupSet) : Prop :=
  in_range parents' /\ forall group, count parents' group = count parents group.

(** A keyed mapping, in the sense of the specification's value
    classifier: a readable value of kind map that is neither
    self-serializing nor self-describing. *)
Definition keyedMapping (v : reflect.Value) (m : reflect.GoValue)
    (kt : reflect.KeyType) (entries : list (reflect.Payload * reflect.GoValue)) : Prop :=
  v = reflect.Val false m
  /\ (exists ms, m = reflect.MapVal ms kt entries)
  /\ asMarshaller (Some m) = None
  /\ marshalsItself (Some m) = false.

(** ** Invariants of the parents set *)

Section Invariants.
Context `{VL : VersionLib}.

(** [parents'] is as good as [parents] for every later decision: the same
    counts, and the same answer to [checkGroups]. *)
Definition settled (options : Options) (parents parents' : groupSet) : Prop :=
  balanced parents parents'
  /\ checkGroups options parents' = checkGroups options parents.

(** A run that started on [parents] and returned left the set settled. *)
Definition run_settled {A} (options : Options) (parents : groupSet) (r : run A) : Prop :=
  returned (fst r) -> settled options parents (snd r).

(** A walker that leaves the parents set settled whenever it returns. *)
Definition restores (walk : walker) : Prop :=
  forall options v groups parents embeddedParents,
    in_range parents ->
    run_settled options parents (walk options v groups parents embeddedParents).

End Invariants.

(** ** Measures and well-formedness of Go values *)

(** The nesting depth of a value: an upper bound on the depth of the
    recursion of [marshalValue] on it. *)
Fixpoint height (g : reflect.GoValue) : nat :=
  match g with
  | reflect.Scalar _ _ _ => 1%nat
  | reflect.Pointer _ pointee => S (height pointee)
  | reflect.NilPointer _ _ => 1%nat
  | reflect.StructVal _ fields =>
      S ((fix go (l : list (reflect.StructField * reflect.GoValue)) : nat :=
            match l with
            | [] => O
            | (_, x) :: rest => Nat.max (height x) (go rest)
            end) fields)
  | reflect.SliceVal _ elems =>
      S ((fix go (l : list reflect.GoValue) : nat :=
            match l with
            | [] => O
            | x :: rest => Nat.max (height x) (go rest)
            end) elems)
  | reflect.MapVal _ _ entries =>
      S ((fix go (l : list (reflect.Payload * reflect.GoValue)) : nat :=
            match l with
            | [] => O
            | (_, x) :: rest => Nat.max (height x) (go rest)
            end) entries)
  | reflect.IfaceVal dyn =>
      S (match dyn with Some x => height x | None => O end)
  end.

Definition Value_height (v : reflect.Value) : nat :=
  match v with reflect.Zero => O | reflect.Val _ g => height g end.

Definition iface_height (data : iface) : nat :=
  match data with None => O | Some g => height g end.

(** A Go map holds one entry per key, at every depth of the value. *)
Fixpoint distinct_keys (g : reflect.GoValue) : Prop :=
  match g with
  | reflect.Scalar _ _ _ => True
  | reflect.Pointer _ pointee => distinct_keys pointee
  | reflect.NilPointer _ _ => True
  | reflect.StructVal _ fields =>
      (fix go (l : list (reflect.StructField * reflect.GoValue)) : Prop :=
         match l with
         | [] => True
         | (_, x) :: rest => distinct_keys x /\ go rest
         end) fields
  | reflect.SliceVal _ elems =>
      (fix go (l : list reflect.GoValue) : Prop :=
         match l with
         | [] => True
         | x :: rest => distinct_keys x /\ go rest
         end) elems
  | reflect.MapVal _ _ entries =>
      NoDup (map fst entries)
      /\ (fix go (l : list (reflect.Payload * reflect.GoValue)) : Prop :=
            match l with
            | [] => True
            | (_, x) :: rest => distinct_keys x /\ go rest
            end) entries
  | reflect.IfaceVal dyn =>
      match dyn with Some x => distinct_keys x | None => True end
  end.

Definition Value_distinct_keys (v : reflect.Value) : Prop :=
  match v with reflect.Zero => True | reflect.Val _ g => distinct_keys g end.

Definition iface_distinct_keys (data : iface) : Prop :=
  match data with None => True | Some g => distinct_keys g end.

Section Totality.
Context `{VL : VersionLib}.

(** A walker that does not run out of fuel on values of height below [n]. *)
Definition total_below (walk : walker) (n : nat) : Prop :=
  forall options v groups parents embeddedParents,
    (Value_height v < n)%nat ->
    fst (walk options v groups parents embeddedParents) <> OutOfFuel.

End Totality.

(** ** Two runs side by side *)

Section Views.
Context `{VL : VersionLib}.

(** Two parents sets that no decision of the walker tells apart: the same
    counts, and the same answer to [checkGroups]. *)
Definition same_view (options : Options) (p q : groupSet) : Prop :=
  in_range p /\ in_range q
  /\ (forall group, count p group = count q group)
  /\ checkGroups options p = checkGroups options q.

(** Two runs that end the same way, and in one view when they return. *)
Definition in_step {A} (options : Options) (r r' : run A) : Prop :=
  fst r = fst r' /\ (returned (fst r) -> same_view options (snd r) (snd r')).

(** A walker whose result depends on the parents set through its view
    only. *)
Definition steady (walk : walker) : Prop :=
  forall options v groups p q embeddedParents,
    same_view options p q ->
    in_step options (walk options v groups p embeddedParents)
      (walk options v groups q embeddedParents).

(** Whatever the first run returns normally, the second returns too. *)
Definition follows {A} (options : Options) (r r' : run A) : Prop :=
  forall a, fst r = Return a ->
            fst r' = Return a /\ same_view options (snd r) (snd r').

(** Two walkers, the second returning what the first returns, on values
    whose maps have distinct keys. *)
Definition agree (walk1 walk2 : walker) : Prop :=
  forall options v groups p q embeddedParents,
    Value_distinct_keys v -> same_view options p q ->
    follows options (walk1 options v groups p embeddedParents)
      (walk2 options v groups q embeddedParents).

(** The map loop without the parents set: [f] is what the walker returns
    for the value of an entry. *)
Fixpoint entries_pure (f : reflect.GoValue -> outcome Node) (kt : reflect.KeyType)
    (entries : list (reflect.Payload * reflect.GoValue))
    (dest : gmap string Node) : outcome (gmap string Node) :=
  match entries with
  | [] => Return dest
  | (key, x) :: rest =>
      match f x with
      | Return d =>
          match keyString kt key with
          | None => Panic KeyNotString
          | Some k => entries_pure f kt rest (<[k := d]> dest)
          end
      | Fail e => Fail e
      | Panic why => Panic why
      | OutOfFuel => OutOfFuel
      end
  end.

End Views.

(** ** Examples: stand-ins for the outside world *)

(** Versions written as one decimal number. *)
Fixpoint digits (s : string) (acc : nat) : option nat :=
  match s with
  | EmptyString => Some acc
  | String c rest =>
      let n := nat_of_ascii c in
      if (48 <=? n)%nat && (n <=? 57)%nat
      then digits rest (10 * acc + (n - 48))%nat
      else None
  end.

#[local] Instance decimalVersions : VersionLib := {|
  Version := nat;
  NewVersion s :=
    match s with
    | EmptyString => inr "Malformed version: "
    | _ => match digits s 0 with
           | Some n => inl n
           | None => inr ("Malformed version: " ++ s)%string
           end
    end;
  LessThan a b := (a <? b)%nat;
  GreaterThan a b := (b <? a)%nat
|}.

(** No type of the examples implements [Marshaller] with success. *)
#[local] Program Instance failingMarshallers : Marshallers := {|
  Marshaller_Marshal _ _ := Fail (ErrorString "delegate failed")
|}.
Next Obligation. discriminate. Qed.

(** Two runtimes: one hands out map keys as listed, one in reverse. *)
#[local] Program Instance listedOrder : Runtime := {| MapKeys entries := entries |}.
Next Obligation. intros. apply Permutation_refl. Qed.

#[local] Program Instance reverseOrder : Runtime := {| MapKeys entries := rev entries |}.
Next Obligation. intros. symmetry. apply Permutation_rev. Qed.

Definition plain : reflect.MethodSet := reflect.noMethods.

Definition str (s : string) : reflect.GoValue :=
  reflect.Scalar plain reflect.String (reflect.PStr s).

Definition int (z : Z) : reflect.GoValue :=
  reflect.Scalar plain reflect.Int (reflect.PInt z).

Definition fld (name : string) (tag : list (string * string)) : reflect.StructField :=
  {| reflect.Name := name; reflect.Exported := true;
     reflect.Anonymous := false; reflect.Tag := tag |}.

Definition embedded (name : string) (tag : list (string * string)) : reflect.StructField :=
  {| reflect.Name := name; reflect.Exported := true;
     reflect.Anonymous := true; reflect.Tag := tag |}.

Definition opts (groups : list string) (api : option nat)
    (ungrouped inherit : bool) : Options :=
  {| Groups := groups; ApiVersion := api;
     OutputFieldsWithNoGroup := ungrouped; InheritGroups := inherit |}.

(** ** Examples: inputs *)

Definition intKeys : reflect.KeyType :=
  {| reflect.keyKind := reflect.Int; reflect.keyIsString := false |}.

Definition stringKeys : reflect.KeyType :=
  {| reflect.keyKind := reflect.String; reflect.keyIsString := true |}.

Definition record (fields : list (reflect.StructField * reflect.GoValue)) : reflect.GoValue :=
  reflect.StructVal plain fields.

(** The activation set [Marshal] seeds from [options.Groups]. *)
Definition activation (options : Options) : groupSet :=
  incrementGroups ∅ (Groups options).

(** [map[int]string{1: "x"}] and [map[int]string{}]. *)
Definition ledger : reflect.GoValue :=
  reflect.MapVal plain intKeys [(reflect.PInt 1, str "x")].

Definition emptyLedger : reflect.GoValue := reflect.MapVal plain intKeys [].

(** [struct { Secret map[int]string `groups:"other"` }], marshalled for
    the group admin: Secret is hidden. *)
Definition secretField : reflect.StructField := fld "Secret" [("groups", "other")].
Definition vault : reflect.GoValue := record [(secretField, ledger)].
Definition adminOnly : Options := opts ["admin"] None false false.

(** [struct { Inner struct { X int } `groups:"a"` }] with inheritGroups on
    and no group activated. *)
Definition innerField : reflect.StructField := fld "Inner" [("groups", "a")].
Definition nested : reflect.GoValue := record [(innerField, record [(fld "X" [], int 7)])].
Definition inheritOnly : Options := opts [] None false true.

(** The same with the group a activated. *)
Definition inheritA : Options := opts ["a"] None false true.

(** A walker that only reports the count of the group a in the parents set
    it is handed. *)
Definition probe : walker :=
  fun _ _ _ parents _ => (Return (NVal (int (count parents "a"))), parents).

(** [struct { X string; Base }] with [type Base struct { X int; Z string }]
    embedded. *)
Definition baseField : reflect.StructField := embedded "Base" [].
Definition base : reflect.GoValue := record [(fld "X" [], int 7); (fld "Z" [], str "z")].
Definition derived : reflect.GoValue := record [(fld "X" [], str "old"); (baseField, base)].
Definition unfiltered : Options := opts [] None false false.

(** [struct { A string; B string `since:"3"` }] for API version 2, and
    without an API version. *)
Definition sinceThree : reflect.StructField := fld "B" [("since", "3")].
Definition versioned : reflect.GoValue := record [(fld "A" [], str "a"); (sinceThree, str "b")].
Definition versionTwo : Options := opts [] (Some 2%nat) false false.

(** [struct { A string; B string `since:"soon"` }], and a record whose
    only field carries that tag and is skipped. *)
Definition sinceSoon : reflect.StructField := fld "B" [("since", "soon")].
Definition broken : reflect.GoValue := record [(fld "A" [], str "a"); (sinceSoon, str "b")].
Definition skippedSoon : reflect.StructField := fld "B" [("json", "-"); ("since", "soon")].
Definition harmless : reflect.GoValue := record [(skippedSoon, str "b")].
Definition skippedThree : reflect.StructField := fld "B" [("json", "-"); ("since", "3")].

(** [map[string]interface{}{"a": struct{ X int `since:"x"` }{},
    "b": struct{ Y int `since:"y"` }{}}]: two entries, each failing with
    an error of its own. *)
Definition twoFailures : reflect.GoValue :=
  reflect.MapVal plain stringKeys
    [ (reflect.PStr "a", reflect.IfaceVal (Some (record [(fld "X" [("since", "x")], int 1)])));
      (reflect.PStr "b", reflect.IfaceVal (Some (record [(fld "Y" [("since", "y")], int 2)]))) ].

(** [map[string]int{"a": 1, "b": 2}]. *)
Definition twoEntries : reflect.GoValue :=
  reflect.MapVal plain stringKeys [(reflect.PStr "a", int 1); (reflect.PStr "b", int 2)].

(** The scenarios of the specification:
    [struct { A string `groups:"admin"`; B int `json:"-"`; C string }]
    and a record with an embedded [Inner]. *)
Definition scenarioSkip : reflect.GoValue :=
  record [ (fld "A" [("groups", "admin")], str "x");
           (fld "B" [("json", "-")], int 0);
           (fld "C" [], str "y") ].

Definition scenarioEmbedded : reflect.GoValue :=
  record [ (embedded "Inner" [], record [(fld "X" [], int 7)]);
           (fld "Y" [], str "y") ].

(** ** Further vocabulary *)

Section FurtherVocabulary.
Context `{VL : VersionLib}.

(** The loop of [marshalObject] over the fields [fs] of a record and their
    values, without the index: [ro] is the flag of the record's handle. *)
Fixpoint walkFields (walk : walker) (options : Options) (groups : groupSet)
    (embeddedParents ro : bool) (fs : list (reflect.StructField * reflect.GoValue))
    (dest : gmap string Node) (parents : groupSet) : run (gmap string Node) :=
  match fs with
  | [] => (Return dest, parents)
  | (field, x) :: rest =>
      andThen
        (marshalField walk options groups embeddedParents field
           (reflect.Val (ro || negb (reflect.Exported field)) x) dest parents)
        (walkFields walk options groups embeddedParents ro rest)
  end.

(** A walker that hands an empty parents set back empty. *)
Definition keeps_empty (options : Options) (walk : walker) : Prop :=
  forall v groups embeddedParents,
    returned (fst (walk options v groups ∅ embeddedParents)) ->
    snd (walk options v groups ∅ embeddedParents) = ∅.

End FurtherVocabulary.

(** ** Examples: further inputs *)

(** [type K string] as a key type, and [map[K]int{"a": 1}]. *)
Definition definedStringKeys : reflect.KeyType :=
  {| reflect.keyKind := reflect.String; reflect.keyIsString := false |}.

Definition labels : reflect.GoValue :=
  reflect.MapVal plain definedStringKeys [(reflect.PStr "a", int 1)].

(** [[]int{1, 2, 3}], and [[]interface{}{1, map[int]string{1: "x"}, 3}]. *)
Definition numbers : reflect.GoValue := reflect.SliceVal plain [int 1; int 2; int 3].

Definition mixed : reflect.GoValue :=
  reflect.SliceVal plain [int 1; ledger; int 3].

(** A map of three entries, one of which fails. *)
Definition oneFailure : reflect.GoValue :=
  reflect.MapVal plain stringKeys
    [ (reflect.PStr "a", int 1);
      (reflect.PStr "b", reflect.IfaceVal (Some (record [(fld "X" [("since", "x")], int 1)])));
      (reflect.PStr "c", int 3) ].

(** A nil [*int]. *)
Definition nilInt : reflect.GoValue :=
  reflect.NilPointer plain (reflect.OtherType reflect.Int).

(** Only ungrouped fields and the group admin; and inheritance with the
    group a activated, as [inheritA]. *)
Definition ungroupedToo : Options := opts ["admin"] None true false.

(** * Properties *)

(** ** group_set.go *)

Section GroupSet.
Implicit Types (s : groupSet) (names : list string) (group : string).

Lemma wrap_int_range z : - 2 ^ 63 <= wrap_int z < 2 ^ 63.
Proof.
  unfold wrap_int.
  pose proof (Z.mod_pos_bound (z + 2 ^ 63) (2 ^ 64) ltac:(lia)). lia.
Qed.

Lemma wrap_int_small z : - 2 ^ 63 <= z < 2 ^ 63 -> wrap_int z = z.
Proof. intros Hz. unfold wrap_int. rewrite Z.mod_small; lia. Qed.

Lemma wrap_int_add_l a b : wrap_int (wrap_int a + b) = wrap_int (a + b).
Proof.
  unfold wrap_int.
  replace ((a + 2 ^ 63) mod 2 ^ 64 - 2 ^ 63 + b + 2 ^ 63)
    with ((a + 2 ^ 63) mod 2 ^ 64 + b) by lia.
  rewrite Zplus_mod_idemp_l. f_equal. f_equal. lia.
Qed.

Lemma wrap_int_sub_l a b : wrap_int (wrap_int a - b) = wrap_int (a - b).
Proof. rewrite <- !Z.add_opp_r. apply wrap_int_add_l. Qed.

Lemma count_insert s g z group :
  count (<[g := z]> s) group = if decide (g = group) then z else count s group.
Proof.
  unfold count. destruct (decide (g = group)) as [->|Hne].
  - by rewrite lookup_insert_eq.
  - by rewrite lookup_insert_ne.
Qed.

Lemma in_range_empty : in_range ∅.
Proof. intros g z. by rewrite lookup_empty. Qed.

Lemma in_range_count s group : in_range s -> - 2 ^ 63 <= count s group < 2 ^ 63.
Proof.
  intros Hs. unfold count. destruct (s !! group) as [z|] eqn:E; simpl.
  - eauto.
  - lia.
Qed.

Lemma in_range_insert s g z : in_range s -> in_range (<[g := wrap_int z]> s).
Proof.
  intros Hs g' z'. destruct (decide (g = g')) as [->|Hne].
  - rewrite lookup_insert_eq. intros [= <-]. apply wrap_int_range.
  - rewrite lookup_insert_ne by done. apply Hs.
Qed.

Lemma in_range_incrementGroups names s :
  in_range s -> in_range (incrementGroups s names).
Proof.
  revert s. induction names as [|g rest IH]; intros s Hs; simpl; [done|].
  apply IH. by apply in_range_insert.
Qed.

Lemma in_range_decrementGroups names s :
  in_range s -> in_range (decrementGroups s names).
Proof.
  revert s. induction names as [|g rest IH]; intros s Hs; simpl; [done|].
  apply IH. by apply in_range_insert.
Qed.

(** Pushing [names] adds to every count the number of times the name
    occurs, in Go's [int] arithmetic. *)
Lemma count_incrementGroups names s group :
  in_range s ->
  count (incrementGroups s names) group
  = wrap_int (count s group + occurrences group names).
Proof.
  revert s. induction names as [|g rest IH]; intros s Hs; simpl.
  - rewrite Z.add_0_r. symmetry. by apply wrap_int_small, in_range_count.
  - rewrite IH by (by apply in_range_insert). rewrite count_insert.
    case_bool_decide as Hg; destruct (decide (g = group)); try done.
    subst. rewrite wrap_int_add_l. f_equal. lia.
Qed.

Lemma count_decrementGroups names s group :
  in_range s ->
  count (decrementGroups s names) group
  = wrap_int (count s group - occurrences group names).
Proof.
  revert s. induction names as [|g rest IH]; intros s Hs; simpl.
  - rewrite Z.sub_0_r. symmetry. by apply wrap_int_small, in_range_count.
  - rewrite IH by (by apply in_range_insert). rewrite count_insert.
    case_bool_decide as Hg; destruct (decide (g = group)); try done.
    subst. rewrite wrap_int_sub_l. f_equal. lia.
Qed.

(** A pop undoes the push of the same names, whatever was pushed and
    popped in between, as long as that left the counts as they were. *)
Lemma pop_after_push names s s' :
  in_range s -> balanced (incrementGroups s names) s' ->
  balanced s (decrementGroups s' names).
Proof.
  intros Hs [Hs' Hcount]. split; [by apply in_range_decrementGroups|].
  intros group. rewrite count_decrementGroups, Hcount, count_incrementGroups by done.
  rewrite wrap_int_sub_l.
  replace (count s group + occurrences group names - occurrences group names)
    with (count s group) by lia.
  by apply wrap_int_small, in_range_count.
Qed.

Lemma balanced_refl s : in_range s -> balanced s s.
Proof. by split. Qed.

Lemma balanced_trans s1 s2 s3 : balanced s1 s2 -> balanced s2 s3 -> balanced s1 s3.
Proof. intros [? H12] [? H23]. split; [done|]. intros g. by rewrite H23. Qed.

Lemma contains_active s group : contains s group = true <-> active s group.
Proof. unfold contains, active. apply Z.ltb_lt. Qed.

Lemma containsAny_intersects s names :
  containsAny s names = true <-> intersects names s.
Proof.
  unfold intersects. induction names as [|g rest IH]; simpl.
  - split; [done|]. intros (g & Hg & _). by apply elem_of_nil in Hg.
  - destruct (contains s g) eqn:E.
    + split; [|done]. intros _. exists g. split; [left|]. by apply contains_active.
    + rewrite IH. split.
      * intros (g' & Hin & Ha). exists g'. split; [by right|done].
      * intros (g' & Hin & Ha). apply elem_of_cons in Hin as [->|Hin].
        -- apply contains_active in Ha. congruence.
        -- eauto.
Qed.

Lemma containsAny_counts s s' names :
  (forall group, count s group = count s' group) ->
  containsAny s names = containsAny s' names.
Proof.
  intros H. induction names as [|g rest IH]; simpl; [done|].
  unfold contains. by rewrite H, IH.
Qed.

Lemma occurrences_bounds group names :
  0 <= occurrences group names <= Z.of_nat (length names).
Proof.
  induction names as [|g rest IH]; simpl; [lia|]. case_bool_decide; lia.
Qed.

Lemma occurrences_positive group names : 0 < occurrences group names <-> group ∈ names.
Proof.
  induction names as [|g rest IH]; simpl.
  - split; [lia|]. intros H. by apply elem_of_nil in H.
  - rewrite elem_of_cons. pose proof (occurrences_bounds group rest).
    case_bool_decide; subst; [split; [by left|lia]|].
    rewrite Z.add_0_l, IH. split; [by right|]. by intros [->|].
Qed.

(** In the set [Marshal] builds from [options.Groups] -- a slice, so
    shorter than 2^63 -- the active groups are the listed ones. *)
Lemma active_seeded names group :
  Z.of_nat (length names) < 2 ^ 63 ->
  active (incrementGroups ∅ names) group <-> group ∈ names.
Proof.
  intros Hlen. unfold active.
  rewrite count_incrementGroups by apply in_range_empty.
  unfold count at 1. rewrite lookup_empty. simpl.
  pose proof (occurrences_bounds group names).
  rewrite wrap_int_small by lia. apply occurrences_positive.
Qed.

Lemma intersects_seeded names activated :
  Z.of_nat (length activated) < 2 ^ 63 ->
  intersects names (incrementGroups ∅ activated) <->
  exists group, group ∈ names /\ group ∈ activated.
Proof.
  intros Hlen. unfold intersects.
  split; intros (g & Hg & Ha); exists g; split; try done; by apply active_seeded.
Qed.

End GroupSet.

(** ** The visibility policy of [marshalObject] *)

Section Visibility.
Context `{VL : VersionLib}.

Lemma checkGroups_policy (options : Options) (parents : groupSet) :
  checkGroups options parents = true <->
  Groups options <> [] \/ (InheritGroups options = true /\ parents <> ∅)
  \/ OutputFieldsWithNoGroup options = true.
Proof.
  unfold checkGroups, len. rewrite !orb_true_iff, andb_true_iff, !Nat.ltb_lt.
  rewrite <- (map_size_non_empty_iff parents).
  destruct (Groups options); simpl; intuition (try done; try lia).
Qed.

Lemma length_zero_nil {A} (l : list A) : (length l =? 0)%nat = true <-> l = [].
Proof. rewrite Nat.eqb_eq. by destruct l. Qed.

(** C1: group visibility is evaluated only when the activation list is
    non-empty, or inheritGroups is on and the parents set has an entry, or
    includeUngrouped is set.  When it is evaluated, the field is
    group-visible iff its declared groups intersect the activation set, or
    inheritGroups is on and the parents set intersects the activation
    list, or the caller is an embedded context and the field declares no
    groups and the parents set intersects the activation list, or the
    field declares no groups and includeUngrouped is set, or the field is
    an embedded record field.  When it is not evaluated, the field is
    group-visible. *)
Theorem group_visibility_policy (options : Options) (groups parents : groupSet)
    (embeddedParents : bool) (field : reflect.StructField) (val : reflect.Value) :
  let embeddedField := isEmbeddedField field (followPointer val) in
  let shown :=
    shouldShowFromGroup options groups parents embeddedParents field embeddedField in
  (checkGroups options parents = true <->
     Groups options <> [] \/ (InheritGroups options = true /\ parents <> ∅)
     \/ OutputFieldsWithNoGroup options = true)
  /\ (if checkGroups options parents
      then shown = true <->
           intersects (declaredGroups field) groups
           \/ (InheritGroups options = true /\ intersects (Groups options) parents)
           \/ (embeddedParents = true /\ declaredGroups field = []
               /\ intersects (Groups options) parents)
           \/ (declaredGroups field = [] /\ OutputFieldsWithNoGroup options = true)
           \/ embeddedField = true
      else shown = true).
Proof.
  intros embeddedField shown. split; [apply checkGroups_policy|].
  subst shown. unfold shouldShowFromGroup.
  destruct (checkGroups options parents); [|done].
  rewrite !orb_true_iff, andb_true_iff, length_zero_nil.
  rewrite <- !containsAny_intersects.
  destruct (InheritGroups options).
  - split.
    + intros [[[H|H]|H]|H]; auto.
    + intros [H|[[_ H]|[(_ & _ & H)|[H|H]]]]; auto.
  - rewrite <- length_zero_nil.
    destruct embeddedParents, (length (declaredGroups field) =? 0)%nat eqn:E; simpl.
    all: split; [intros [[[H|H]|H]|H]; auto 6; try done
                |intros [H|[[H1 H]|[(H1 & H2 & H)|[H|H]]]]; auto; try done ].
Qed.

End Visibility.

(** ** The loop of [marshalObject] *)

Section Loop.
Context `{VL : VersionLib}.
Implicit Types (walk : walker) (options : Options) (groups parents : groupSet).
Implicit Types (field : reflect.StructField) (val : reflect.Value).

Lemma andThen_assoc {A B C} (r : run A) (k : A -> groupSet -> run B)
    (k' : B -> groupSet -> run C) :
  andThen (andThen r k) k' = andThen r (fun a p => andThen (k a p) k').
Proof. by destruct r as [[]]. Qed.

Lemma andThen_ext {A B} (r : run A) (k k' : A -> groupSet -> run B) :
  (forall a p, k a p = k' a p) -> andThen r k = andThen r k'.
Proof. intros H. destruct r as [[]]; simpl; auto. Qed.

(** The loop over the fields [fs1 ++ fs2] is the loop over [fs1] followed,
    when that one completes, by the loop over [fs2]. *)
Lemma marshalFields_app walk options groups embeddedParents v fs1 fs2 i dest parents :
  marshalFields walk options groups embeddedParents v (fs1 ++ fs2) i dest parents
  = andThen (marshalFields walk options groups embeddedParents v fs1 i dest parents)
      (marshalFields walk options groups embeddedParents v fs2 (i + length fs1)).
Proof.
  revert i dest parents. induction fs1 as [|f fs1 IH]; intros i dest parents; simpl.
  - by rewrite Nat.add_0_r.
  - destruct (reflect.Field v i) as [val|]; [|done].
    rewrite andThen_assoc. apply andThen_ext. intros d p.
    rewrite IH. by rewrite Nat.add_succ_r.
Qed.

Lemma Field_middle ro ms (pre post : list (reflect.StructField * reflect.GoValue)) field x :
  reflect.Field (reflect.Val ro (reflect.StructVal ms (pre ++ (field, x) :: post)))
    (length pre)
  = Some (reflect.Val (ro || negb (reflect.Exported field)) x).
Proof.
  simpl. rewrite nth_error_app2 by lia. by rewrite Nat.sub_diag.
Qed.

(** On a record, [marshalObject] is the loop over its fields, started on
    an empty destination map. *)
Lemma marshalObjectWith_record walk options ms fields groups parents embeddedParents :
  marshalObjectWith walk options (Some (reflect.StructVal ms fields))
    groups parents embeddedParents
  = andThen
      (marshalFields walk options groups embeddedParents
         (reflect.Val false (reflect.StructVal ms fields)) (map fst fields) 0 ∅ parents)
      (fun dest parents => (Return (NMap dest), parents)).
Proof. reflexivity. Qed.

(** A pointer to a record is followed: the walk is that of the record. *)
Lemma marshalObjectWith_pointer walk options ms' ms fields groups parents embeddedParents :
  marshalObjectWith walk options
    (Some (reflect.Pointer ms' (reflect.StructVal ms fields)))
    groups parents embeddedParents
  = marshalObjectWith walk options (Some (reflect.StructVal ms fields))
      groups parents embeddedParents.
Proof. reflexivity. Qed.

(** The loop reaches the field after [pre] when the fields of [pre] were
    all gone through; from there it is the body for that field, then the
    rest of the loop. *)
Lemma marshalObjectWith_reaches walk options ms pre field x post groups parents0
    embeddedParents dest parents :
  let record := reflect.StructVal ms (pre ++ (field, x) :: post) in
  marshalFields walk options groups embeddedParents (reflect.Val false record)
    (map fst pre) 0 ∅ parents0 = (Return dest, parents) ->
  marshalObjectWith walk options (Some record) groups parents0 embeddedParents
  = andThen
      (andThen
         (marshalField walk options groups embeddedParents field
            (reflect.Val (negb (reflect.Exported field)) x) dest parents)
         (marshalFields walk options groups embeddedParents (reflect.Val false record)
            (map fst post) (S (length pre))))
      (fun dest parents => (Return (NMap dest), parents)).
Proof.
  intros record Hpre. subst record.
  rewrite marshalObjectWith_record, map_app, marshalFields_app, Hpre.
  cbn [andThen map fst marshalFields].
  by rewrite length_map, Nat.add_0_l, Field_middle.
Qed.

(** The body of the loop for a field that is not skipped and whose version
    tags were checked without incident: one call of the walker, which
    decides how the body ends. *)
Lemma marshalField_walks walk options groups embeddedParents field val dest parents s u :
  skipped field val = false ->
  shouldShowFromSince options field = Return s ->
  shouldShowFromUntil options field = Return u ->
  let val' := followPointer val in
  let emb := isEmbeddedField field val' in
  let names := groupNames options parents field in
  let shown := shouldShowFromGroup options groups parents embeddedParents field emb
               && s && u in
  marshalField walk options groups embeddedParents field val dest parents
  = match walk options val' groups (pushParents options parents emb names) emb with
    | (Return v, p) =>
        (Return (store dest (jsonTag field) emb shown v), popParents options p emb names)
    | (Fail err, p) => (Fail err, popParents options p emb names)
    | (Panic why, p) => (Panic why, p)
    | (OutOfFuel, p) => (OutOfFuel, p)
    end.
Proof.
  intros Hskip Hs Hu. unfold marshalField. rewrite Hskip, Hs, Hu. simpl.
  by destruct (walk _ _ _ _ _) as [[]].
Qed.

(** C2: for a field that reaches the recursion step (not skipped, its
    version tags checked), the walker is called on the field's value
    whatever the group, since and until checks said: the checks only
    decide whether the value it returns is stored in the output mapping;
    and when the walker returns an error, [marshalObject] returns that
    error, also for a field that the checks hide. *)
Theorem hidden_field_is_still_walked walk options groups embeddedParents
    field val dest parents s u :
  skipped field val = false ->
  shouldShowFromSince options field = Return s ->
  shouldShowFromUntil options field = Return u ->
  let val' := followPointer val in
  let emb := isEmbeddedField field val' in
  let names := groupNames options parents field in
  let shown := shouldShowFromGroup options groups parents embeddedParents field emb
               && s && u in
  let call := walk options val' groups (pushParents options parents emb names) emb in
  (forall v p, call = (Return v, p) ->
     marshalField walk options groups embeddedParents field val dest parents
     = (Return (if shown then store dest (jsonTag field) emb true v else dest),
        popParents options p emb names))
  /\ (forall err p, call = (Fail err, p) ->
        marshalField walk options groups embeddedParents field val dest parents
        = (Fail err, popParents options p emb names))
  /\ (forall err p ms pre x post parents0,
        let record := reflect.StructVal ms (pre ++ (field, x) :: post) in
        val = reflect.Val (negb (reflect.Exported field)) x ->
        marshalFields walk options groups embeddedParents (reflect.Val false record)
          (map fst pre) 0 ∅ parents0 = (Return dest, parents) ->
        call = (Fail err, p) ->
        marshalObjectWith walk options (Some record) groups parents0 embeddedParents
        = (Fail err, popParents options p emb names)).
Proof.
  intros Hskip Hs Hu val' emb names shown call.
  pose proof (marshalField_walks walk options groups embeddedParents field val
                dest parents s u Hskip Hs Hu) as Hbody.
  simpl in Hbody. fold val' emb names shown call in Hbody.
  split; [|split].
  - intros v p Hcall. rewrite Hbody, Hcall. by destruct shown.
  - intros err p Hcall. by rewrite Hbody, Hcall.
  - intros err p ms pre x post parents0 record -> Hpre Hcall.
    subst record. rewrite (marshalObjectWith_reaches _ _ _ _ _ _ _ _ _ _ _ _ Hpre).
    by rewrite Hbody, Hcall.
Qed.

End Loop.

(** ** Push/pop balance of the parents set *)

Section Balance.
Context `{VL : VersionLib}.
Implicit Types (walk : walker) (options : Options) (groups parents : groupSet).

Lemma settled_refl options parents : in_range parents -> settled options parents parents.
Proof. intros H. split; [by apply balanced_refl|done]. Qed.

Lemma settled_trans options p1 p2 p3 :
  settled options p1 p2 -> settled options p2 p3 -> settled options p1 p3.
Proof.
  intros [H12 E12] [H23 E23]. split; [by eapply balanced_trans|]. by rewrite E23.
Qed.

Lemma settled_in_range options p1 p2 : settled options p1 p2 -> in_range p2.
Proof. by intros [[? _] _]. Qed.

Ltac settle :=
  unfold run_settled; simpl; first [done | intros _; by apply settled_refl].

Lemma andThen_settled {A B} options parents (r : run A) (k : A -> groupSet -> run B) :
  in_range parents ->
  run_settled options parents r ->
  (forall a p, r = (Return a, p) -> in_range p -> run_settled options p (k a p)) ->
  run_settled options parents (andThen r k).
Proof.
  intros Hin Hr Hk. destruct r as [[a|e|w|] p]; simpl; try done.
  intros Hret. specialize (Hr I). simpl in Hr.
  eapply settled_trans; [exact Hr|].
  apply (Hk a p eq_refl); [by eapply settled_in_range|done].
Qed.

Lemma incrementGroups_non_empty names parents :
  parents <> ∅ -> incrementGroups parents names <> ∅.
Proof.
  revert parents. induction names as [|g rest IH]; intros parents H; simpl; [done|].
  apply IH, insert_non_empty.
Qed.

Lemma decrementGroups_non_empty names parents :
  parents <> ∅ -> decrementGroups parents names <> ∅.
Proof.
  revert parents. induction names as [|g rest IH]; intros parents H; simpl; [done|].
  apply IH, insert_non_empty.
Qed.

Lemma checkGroups_incrementGroups options parents names :
  checkGroups options parents = true ->
  checkGroups options (incrementGroups parents names) = true.
Proof.
  rewrite !checkGroups_policy. intros [H|[[H1 H2]|H]]; auto.
  right. left. split; [done|]. by apply incrementGroups_non_empty.
Qed.

Lemma checkGroups_decrementGroups options parents names :
  checkGroups options parents = true ->
  checkGroups options (decrementGroups parents names) = true.
Proof.
  rewrite !checkGroups_policy. intros [H|[[H1 H2]|H]]; auto.
  right. left. split; [done|]. by apply decrementGroups_non_empty.
Qed.

Lemma groupNames_unchecked options parents field :
  checkGroups options parents = false -> groupNames options parents field = [].
Proof. unfold groupNames. by intros ->. Qed.

Lemma in_range_pushParents options parents emb names :
  in_range parents -> in_range (pushParents options parents emb names).
Proof.
  unfold pushParents. destruct (_ || _); [apply in_range_incrementGroups|done].
Qed.

(** The pop after the recursion settles what the push before it did. *)
Lemma pop_settles options parents emb field p :
  let names := groupNames options parents field in
  in_range parents ->
  settled options (pushParents options parents emb names) p ->
  settled options parents (popParents options p emb names).
Proof.
  intros names Hin [Hbal Hcheck]. unfold pushParents, popParents in *.
  destruct (InheritGroups options || emb); [|by split].
  split; [by apply pop_after_push|].
  destruct (checkGroups options parents) eqn:E.
  - apply checkGroups_decrementGroups. rewrite Hcheck.
    by apply checkGroups_incrementGroups.
  - subst names. rewrite groupNames_unchecked in * by done. simpl in *.
    by rewrite Hcheck.
Qed.

Lemma marshalField_restores walk options groups embeddedParents field val dest parents :
  restores walk -> in_range parents ->
  run_settled options parents
    (marshalField walk options groups embeddedParents field val dest parents).
Proof.
  intros Hwalk Hin. unfold marshalField.
  destruct (skipped field val); [intros _; by apply settled_refl|].
  destruct (shouldShowFromSince options field) as [s|e|w|];
    cbn [andThen]; [|settle..].
  destruct (shouldShowFromUntil options field) as [u|e|w|];
    cbn [andThen]; [|settle..].
  set (val' := followPointer val). set (emb := isEmbeddedField field val').
  pose proof (Hwalk options val' groups
    (pushParents options parents emb (groupNames options parents field)) emb
    (in_range_pushParents _ _ _ _ Hin)) as Hcall.
  destruct (walk _ _ _ _ _) as [[v|e|w|] p]; unfold run_settled in *; simpl in *;
    try done.
  - intros _. apply pop_settles; [done|]. by apply Hcall.
  - intros _. apply pop_settles; [done|]. by apply Hcall.
Qed.

Lemma marshalFields_restores walk options groups embeddedParents v fields i dest parents :
  restores walk -> in_range parents ->
  run_settled options parents
    (marshalFields walk options groups embeddedParents v fields i dest parents).
Proof.
  intros Hwalk. revert i dest parents.
  induction fields as [|field rest IH]; intros i dest parents Hin; simpl.
  - intros _. by apply settled_refl.
  - destruct (reflect.Field v i) as [val|]; [|done].
    apply andThen_settled; [done|by apply marshalField_restores|].
    intros d p _ Hp. by apply IH.
Qed.

Lemma marshalObjectWith_restores walk options data groups parents embeddedParents :
  restores walk -> in_range parents ->
  run_settled options parents
    (marshalObjectWith walk options data groups parents embeddedParents).
Proof.
  intros Hwalk Hin. unfold marshalObjectWith.
  destruct (reflect.Value_Type _) as [t|]; [|done].
  destruct (negb _); [by apply Hwalk|].
  apply andThen_settled; [done|by apply marshalFields_restores|].
  intros d p _ Hp _. by apply settled_refl.
Qed.

Lemma marshalElems_restores walk options groups embeddedParents elems parents :
  restores walk -> in_range parents ->
  run_settled options parents
    (marshalElems walk options groups embeddedParents elems parents).
Proof.
  intros Hwalk. revert parents.
  induction elems as [|elem rest IH]; intros parents Hin; simpl.
  - intros _. by apply settled_refl.
  - apply andThen_settled; [done|by apply Hwalk|].
    intros d p _ Hp. apply andThen_settled; [done|by apply IH|].
    intros ds p' _ Hp' _. by apply settled_refl.
Qed.

Lemma marshalEntries_restores walk options groups embeddedParents kt ro entries dest parents :
  restores walk -> in_range parents ->
  run_settled options parents
    (marshalEntries walk options groups embeddedParents kt ro entries dest parents).
Proof.
  intros Hwalk. revert dest parents.
  induction entries as [|[key x] rest IH]; intros dest parents Hin; simpl.
  - intros _. by apply settled_refl.
  - apply andThen_settled; [done|by apply Hwalk|].
    intros d p _ Hp. destruct (keyString kt key); [by apply IH|done].
Qed.

End Balance.

Section BalanceOfMarshalValue.
Context `{VL : VersionLib} {MS : Marshallers} {RT : Runtime}.

Lemma marshalValue_restores fuel : restores (marshalValue fuel).
Proof.
  induction fuel as [|fuel IH]; intros options v groups parents embeddedParents Hin;
    simpl; [done|].
  destruct (negb (reflect.IsValid v) || negb (reflect.CanInterface v));
    [intros _; by apply settled_refl|].
  destruct (reflect.Value_Interface v) as [val|]; [|done].
  destruct (asMarshaller val); [intros _; by apply settled_refl|].
  destruct (marshalsItself val); [intros _; by apply settled_refl|].
  match goal with |- context [match ?x with Some _ => _ | None => _ end] =>
    destruct x as [[[v' val'] k]|] end; [|done].
  destruct (_ || _); [by apply marshalObjectWith_restores|].
  destruct (bool_decide (k = reflect.Slice)).
  { apply andThen_settled; [done|by apply marshalElems_restores|].
    intros ds p _ Hp _. by apply settled_refl. }
  destruct (bool_decide (k = reflect.Map)); [|intros _; by apply settled_refl].
  destruct v' as [|ro []]; try (intros _; by apply settled_refl).
  destruct (MapKeys entries) eqn:E; [intros _; by apply settled_refl|].
  destruct (negb _); [intros _; by apply settled_refl|].
  apply andThen_settled; [done|by apply marshalEntries_restores|].
  intros ds p' _ Hp _. by apply settled_refl.
Qed.

Lemma marshalObject_restores fuel options data groups parents embeddedParents :
  in_range parents ->
  run_settled options parents
    (marshalObject fuel options data groups parents embeddedParents).
Proof.
  intros Hin. unfold marshalObject.
  apply marshalObjectWith_restores; [apply marshalValue_restores|done].
Qed.

End BalanceOfMarshalValue.

(** ** Enough fuel *)

Section EnoughFuel.
Context `{VL : VersionLib}.
Implicit Types (walk : walker) (options : Options) (groups parents : groupSet).

Lemma height_field ms fields f x :
  In (f, x) fields -> (height x < height (reflect.StructVal ms fields))%nat.
Proof.
  cbn [height]. induction fields as [|[f' x'] rest IH]; [done|].
  intros [[= -> ->]|Hin]; [lia|]. specialize (IH Hin). lia.
Qed.

Lemma height_elem ms elems x :
  In x elems -> (height x < height (reflect.SliceVal ms elems))%nat.
Proof.
  cbn [height]. induction elems as [|x' rest IH]; [done|].
  intros [->|Hin]; [lia|]. specialize (IH Hin). lia.
Qed.

Lemma height_entry ms kt entries key x :
  In (key, x) entries -> (height x < height (reflect.MapVal ms kt entries))%nat.
Proof.
  cbn [height]. induction entries as [|[key' x'] rest IH]; [done|].
  intros [[= -> ->]|Hin]; [lia|]. specialize (IH Hin). lia.
Qed.

Lemma height_positive g : (0 < height g)%nat.
Proof. destruct g; cbn [height]; lia. Qed.

Lemma Field_height v i val :
  reflect.Field v i = Some val -> (Value_height val < Value_height v)%nat.
Proof.
  destruct v as [|ro []]; try done. simpl reflect.Field.
  destruct (nth_error fields i) as [[f x]|] eqn:E; [|done].
  intros [= <-]. apply nth_error_In in E. by eapply height_field.
Qed.

Lemma Elem_height v : (Value_height (reflect.Elem v) <= Value_height v)%nat.
Proof. destruct v as [|ro []]; cbn [reflect.Elem Value_height height]; lia. Qed.

Lemma Interface_height v val :
  reflect.Value_Interface v = Some val ->
  (iface_height val <= Value_height v)%nat
  /\ (reflect.Value_Kind v = reflect.Interface ->
      (iface_height val < Value_height v)%nat).
Proof.
  destruct v as [|ro g]; [done|].
  destruct g; intros [= <-]; simpl; split; try done; try lia.
  all: destruct dyn; simpl; lia.
Qed.

Lemma followPointer_height val : (Value_height (followPointer val) <= Value_height val)%nat.
Proof. unfold followPointer. case_bool_decide; [apply Elem_height|done]. Qed.

Lemma andThen_fuel {A B} (r : run A) (k : A -> groupSet -> run B) :
  fst r <> OutOfFuel ->
  (forall a p, fst (k a p) <> OutOfFuel) ->
  fst (andThen r k) <> OutOfFuel.
Proof. intros Hr Hk. destruct r as [[]]; simpl; auto. Qed.

Lemma versionCheck_fuel hides options tag : versionCheck hides options tag <> OutOfFuel.
Proof.
  unfold versionCheck. destruct (negb _); [|done].
  destruct (NewVersion tag); [|done]. by destruct (ApiVersion options).
Qed.

Lemma marshalField_fuel walk n options groups embeddedParents field val dest parents :
  total_below walk n -> (Value_height val < n)%nat ->
  fst (marshalField walk options groups embeddedParents field val dest parents)
  <> OutOfFuel.
Proof.
  intros Hwalk Hval. unfold marshalField. destruct (skipped field val); [done|].
  apply andThen_fuel; [apply versionCheck_fuel|]. intros s p.
  apply andThen_fuel; [apply versionCheck_fuel|]. intros u p'.
  match goal with |- context [walk ?o ?v ?g ?q ?e] =>
    pose proof (Hwalk o v g q e) as Hcall; destruct (walk o v g q e) as [[]] end;
    simpl in *; try done.
  exfalso. apply Hcall; [|done]. pose proof (followPointer_height val). lia.
Qed.

Lemma marshalFields_fuel walk n options groups embeddedParents v fields i dest parents :
  total_below walk n -> (Value_height v <= n)%nat ->
  fst (marshalFields walk options groups embeddedParents v fields i dest parents)
  <> OutOfFuel.
Proof.
  intros Hwalk Hv. revert i dest parents.
  induction fields as [|field rest IH]; intros i dest parents; simpl; [done|].
  destruct (reflect.Field v i) as [val|] eqn:E; [|done].
  apply andThen_fuel; [|by intros].
  eapply marshalField_fuel; [done|]. apply Field_height in E. lia.
Qed.

Lemma marshalObjectWith_fuel_record walk n options ms fields groups parents embeddedParents :
  total_below walk n -> (height (reflect.StructVal ms fields) <= n)%nat ->
  fst (marshalObjectWith walk options (Some (reflect.StructVal ms fields))
         groups parents embeddedParents) <> OutOfFuel.
Proof.
  intros Hwalk Hh. rewrite marshalObjectWith_record.
  apply andThen_fuel; [|done]. by apply (marshalFields_fuel walk n).
Qed.

Lemma marshalObjectWith_fuel walk n options data groups parents embeddedParents :
  total_below walk n ->
  (iface_height data <= n)%nat ->
  (forall g, data = Some g -> reflect.kindOf g <> reflect.Struct ->
             reflect.kindOf g <> reflect.Ptr -> (height g < n)%nat) ->
  fst (marshalObjectWith walk options data groups parents embeddedParents) <> OutOfFuel.
Proof.
  intros Hwalk Hh Hlt. destruct data as [g|]; [|done].
  specialize (Hlt g eq_refl). pose proof (height_positive g) as Hpos.
  destruct g as [ms k p|ms pointee|ms elem|ms fields|ms elems|ms kt entries|dyn].
  4: { by apply (marshalObjectWith_fuel_record walk n). }
  all: unfold marshalObjectWith; cbn [reflect.ValueOf reflect.Value_Type].
  all: cbn [reflect.typeOf reflect.Type_Kind reflect.Value_Kind reflect.kindOf
            reflect.Type_Elem reflect.Elem] in *.
  all: repeat case_bool_decide; cbn [negb]; try done.
  all: try (apply Hwalk; simpl in *; first [lia | apply Hlt; congruence]).
  all: try (apply andThen_fuel; [|done]; apply (marshalFields_fuel walk n); [done|];
            simpl in *; lia).
Qed.

Lemma marshalElems_fuel walk n options groups embeddedParents elems parents :
  total_below walk n -> Forall (fun v => (Value_height v < n)%nat) elems ->
  fst (marshalElems walk options groups embeddedParents elems parents) <> OutOfFuel.
Proof.
  intros Hwalk Hall. revert parents.
  induction Hall as [|elem rest Helem Hrest IH]; intros parents; simpl; [done|].
  apply andThen_fuel; [by apply Hwalk|]. intros d p.
  apply andThen_fuel; [apply IH|done].
Qed.

Lemma marshalEntries_fuel walk n options groups embeddedParents kt ro entries dest parents :
  total_below walk n -> Forall (fun e => (height (snd e) < n)%nat) entries ->
  fst (marshalEntries walk options groups embeddedParents kt ro entries dest parents)
  <> OutOfFuel.
Proof.
  intros Hwalk Hall. revert dest parents.
  induction Hall as [|[key x] rest Hx Hrest IH]; intros dest parents; simpl; [done|].
  apply andThen_fuel; [by apply Hwalk|]. intros d p.
  destruct (keyString kt key); [apply IH|done].
Qed.

End EnoughFuel.

Section EnoughFuelForMarshalValue.
Context `{VL : VersionLib} {MS : Marshallers} {RT : Runtime}.

Lemma Indexes_height v n :
  (Value_height v <= n)%nat ->
  Forall (fun x => (Value_height x < n)%nat) (reflect.Indexes v).
Proof.
  intros Hv. destruct v as [|ro []]; try by constructor.
  cbn [reflect.Indexes]. apply Forall_forall. intros x Hx.
  apply list_elem_of_In, in_map_iff in Hx as (g & <- & Hg).
  apply (height_elem ms) in Hg. simpl in *. lia.
Qed.

(** [marshalValue] on a value of height below the fuel does not run out
    of it. *)
Lemma marshalValue_fuel fuel : total_below (marshalValue fuel) fuel.
Proof.
  induction fuel as [|fuel IH]; intros options v groups parents embeddedParents Hh;
    [lia|].
  simpl. destruct (negb (reflect.IsValid v) || negb (reflect.CanInterface v)); [done|].
  destruct (reflect.Value_Interface v) as [val|] eqn:Eval; [|done].
  destruct (asMarshaller val); [apply Marshaller_terminates|].
  destruct (marshalsItself val); [done|].
  match goal with |- context [match ?x with Some _ => _ | None => _ end] =>
    destruct x as [[[v' val'] k]|] eqn:E end; [|done].
  assert ((Value_height v' <= fuel)%nat /\ reflect.Value_Interface v' = Some val'
          /\ k = reflect.Value_Kind v') as (Hv' & Hval' & ->).
  { clear IH. case_bool_decide.
    - destruct (reflect.Value_Interface (reflect.Elem v)) eqn:E0; [|done].
      injection E as <- <- <-. pose proof (Elem_height v). repeat split; [lia|done].
    - injection E as <- <- <-. repeat split; [lia|done]. }
  clear E.
  destruct (_ || _) eqn:Ek.
  { destruct (Interface_height _ _ Hval') as [Hle Hlt].
    apply (marshalObjectWith_fuel _ fuel); [done|lia|].
    intros g -> Hns Hnp. apply orb_true_iff in Ek as [Ek|Ek];
      apply bool_decide_eq_true in Ek.
    - specialize (Hlt Ek). simpl in Hlt. lia.
    - destruct v' as [|ro []]; simpl in *; simplify_eq; done. }
  destruct (bool_decide (reflect.Value_Kind v' = reflect.Slice)).
  { apply andThen_fuel; [|done]. apply (marshalElems_fuel _ fuel); [done|].
    by apply Indexes_height. }
  destruct (bool_decide (reflect.Value_Kind v' = reflect.Map)); [|done].
  destruct v' as [|ro []]; try done.
  destruct (MapKeys entries) eqn:Ekeys; [done|]. destruct (negb _); [done|].
  apply andThen_fuel; [|done]. apply (marshalEntries_fuel _ fuel); [done|].
  rewrite <- Ekeys. apply Forall_forall. intros [key x] Hx.
  apply list_elem_of_In in Hx.
  apply (Permutation_in _ (MapKeys_Permutation entries)) in Hx.
  apply (height_entry ms kt) in Hx. simpl in *. lia.
Qed.

(** [marshalObject], and so [Marshal], with fuel above the height of the
    input does not run out of it. *)
Lemma marshalObject_fuel fuel options data groups parents embeddedParents :
  (iface_height data < fuel)%nat ->
  fst (marshalObject fuel options data groups parents embeddedParents) <> OutOfFuel.
Proof.
  intros Hh. apply (marshalObjectWith_fuel _ fuel); [apply marshalValue_fuel|lia|].
  by intros g ->.
Qed.

End EnoughFuelForMarshalValue.

(** ** The claims about [marshalObject]'s loop body *)

Section Fields.
Context `{VL : VersionLib} {MS : Marshallers} {RT : Runtime}.
Implicit Types (walk : walker) (options : Options) (groups parents : groupSet).
Implicit Types (field : reflect.StructField) (val : reflect.Value).

(** C3, as amended: whenever a call of [marshalObject] returns, normally
    or with an error, every group name has in the parents set the count
    it had when the call was entered (and with fuel above the height of
    the input the call does not stop for lack of fuel).  Around the
    recursion into a field the loop pushes and then pops the same names,
    iff inheritGroups is on or the field is an embedded record field;
    these names are the field's declared groups when group visibility
    was evaluated for the field, and no names at all when it was not. *)
Theorem parents_set_is_balanced fuel options data groups parents embeddedParents :
  in_range parents ->
  let r := marshalObject fuel options data groups parents embeddedParents in
  (returned (fst r) -> forall group, count (snd r) group = count parents group)
  /\ ((iface_height data < fuel)%nat -> fst r <> OutOfFuel)
  /\ (forall field emb p0,
        in_range p0 ->
        let names := groupNames options p0 field in
        names = (if checkGroups options p0 then declaredGroups field else [])
        /\ pushParents options p0 emb names
           = (if InheritGroups options || emb then incrementGroups p0 names else p0)
        /\ (forall p, popParents options p emb names
                      = if InheritGroups options || emb
                        then decrementGroups p names else p)
        /\ (forall p, balanced (pushParents options p0 emb names) p ->
                      balanced p0 (popParents options p emb names))).
Proof.
  intros Hin r. split; [|split].
  - intros Hret. by destruct (marshalObject_restores fuel options data groups parents
                                embeddedParents Hin Hret) as [[_ H] _].
  - apply marshalObject_fuel.
  - intros field emb p0 Hp0 names. split; [done|split; [done|split; [done|]]].
    intros p Hp. unfold pushParents, popParents in *.
    destruct (_ || _); [by apply pop_after_push|].
    destruct Hp as [? Hp]. by split.
Qed.

Lemma mergeInto_union (dest nestedVal : gmap string Node) :
  mergeInto dest nestedVal = nestedVal ∪ dest.
Proof.
  unfold mergeInto.
  apply (map_fold_weak_ind (fun r m => r = m ∪ dest)).
  - by rewrite (left_id ∅ (∪)).
  - intros k v m r _ ->. by rewrite insert_union_l.
Qed.

(** C4: an embedded record field (after following one pointer) is always
    group-visible; when the since and until checks pass as well and the
    walker returned a mapping for it, the entries of that mapping are
    put into the parent's output mapping under their own keys, replacing
    the parent's entries with the same keys; when the checks pass and the
    walker returned anything else, that is stored under the field's
    output key (and when a check fails, the output mapping is left as it
    was). *)
Theorem embedded_field_is_flattened walk options groups embeddedParents
    field val dest parents s u :
  isEmbeddedField field (followPointer val) = true ->
  skipped field val = false ->
  shouldShowFromSince options field = Return s ->
  shouldShowFromUntil options field = Return u ->
  let names := groupNames options parents field in
  shouldShowFromGroup options groups parents embeddedParents field true = true
  /\ forall v p,
       walk options (followPointer val) groups
         (pushParents options parents true names) true = (Return v, p) ->
       marshalField walk options groups embeddedParents field val dest parents
       = (Return (if s && u
                  then match v with
                       | NMap nestedVal => nestedVal ∪ dest
                       | _ => <[jsonTag field := v]> dest
                       end
                  else dest),
          popParents options p true names).
Proof.
  intros Hemb Hskip Hs Hu names.
  assert (shouldShowFromGroup options groups parents embeddedParents field true = true)
    as Hgroup.
  { unfold shouldShowFromGroup. destruct (checkGroups options parents); [|done].
    by rewrite orb_true_r. }
  split; [done|]. intros v p Hcall.
  rewrite (marshalField_walks walk options groups embeddedParents field val dest
             parents s u Hskip Hs Hu).
  rewrite Hemb. fold names. rewrite Hcall, Hgroup. simpl.
  unfold store. destruct (s && u); [|done].
  destruct v; simpl; try done. by rewrite mergeInto_union.
Qed.

Lemma versionCheck_parsed hides options tag V ver :
  ApiVersion options = Some V -> tag <> "" -> NewVersion tag = inl ver ->
  versionCheck hides options tag = Return (negb (hides V ver)).
Proof.
  intros HV Htag Hver. unfold versionCheck.
  rewrite bool_decide_eq_false_2 by done. simpl. by rewrite Hver, HV.
Qed.

Lemma versionCheck_unparsable hides options tag msg :
  tag <> "" -> NewVersion tag = inr msg ->
  versionCheck hides options tag = Fail (ErrorString msg).
Proof.
  intros Htag Hver. unfold versionCheck.
  rewrite bool_decide_eq_false_2 by done. simpl. by rewrite Hver.
Qed.

Lemma versionCheck_nil hides options tag ver :
  ApiVersion options = None -> tag <> "" -> NewVersion tag = inl ver ->
  versionCheck hides options tag = Panic NilVersion.
Proof.
  intros HV Htag Hver. unfold versionCheck.
  rewrite bool_decide_eq_false_2 by done. simpl. by rewrite Hver, HV.
Qed.

Lemma versionCheck_absent hides options : versionCheck hides options "" = Return true.
Proof. done. Qed.

(** C5: with target version [V], a field whose since tag parses to [S] is
    visible from since iff [V] is not less than [S], and a field whose
    until tag parses to [U] is visible from until iff [V] is not greater
    than [U].  In particular, when [V] is less than [S] the loop body
    leaves the output mapping as it was, whatever the group check says;
    when [V] is not less than [S], whether the recursed value of the field
    is stored is decided by the group and until checks alone. *)
Theorem version_visibility options field V :
  ApiVersion options = Some V ->
  let since := reflect.Tag_Get (reflect.Tag field) "since" in
  let until := reflect.Tag_Get (reflect.Tag field) "until" in
  (forall S, since <> "" -> NewVersion since = inl S ->
     shouldShowFromSince options field = Return (negb (LessThan V S)))
  /\ (forall U, until <> "" -> NewVersion until = inl U ->
        shouldShowFromUntil options field = Return (negb (GreaterThan V U)))
  /\ (forall S walk groups embeddedParents val dest parents dest' p,
        since <> "" -> NewVersion since = inl S -> LessThan V S = true ->
        marshalField walk options groups embeddedParents field val dest parents
        = (Return dest', p) ->
        dest' = dest)
  /\ (forall S walk groups embeddedParents val dest parents u v p,
        since <> "" -> NewVersion since = inl S -> LessThan V S = false ->
        skipped field val = false ->
        shouldShowFromUntil options field = Return u ->
        let emb := isEmbeddedField field (followPointer val) in
        let names := groupNames options parents field in
        walk options (followPointer val) groups
          (pushParents options parents emb names) emb = (Return v, p) ->
        marshalField walk options groups embeddedParents field val dest parents
        = (Return
             (store dest (jsonTag field) emb
                (shouldShowFromGroup options groups parents embeddedParents
                   field emb && u) v),
           popParents options p emb names)).
Proof.
  intros HV since until. split; [|split; [|split]].
  - intros S Htag HS. by apply versionCheck_parsed.
  - intros U Htag HU. by apply versionCheck_parsed.
  - intros S walk groups embeddedParents val dest parents dest' p Htag HS Hlt.
    unfold marshalField. destruct (skipped field val); [by intros [= <-]|].
    unfold shouldShowFromSince. fold since.
    rewrite (versionCheck_parsed _ _ _ V S HV Htag HS), Hlt. cbn [andThen negb].
    destruct (shouldShowFromUntil options field) as [u| | |]; cbn [andThen]; try done.
    destruct (walk _ _ _ _ _) as [[v| | |] p']; try done.
    rewrite andb_false_r. cbn [andb store]. by intros [= <-].
  - intros S walk groups embeddedParents val dest parents u v p Htag HS Hlt Hskip Hu
      emb names Hcall.
    rewrite (marshalField_walks walk options groups embeddedParents field val dest
               parents (negb (LessThan V S)) u Hskip
               (versionCheck_parsed _ _ _ _ _ HV Htag HS) Hu).
    fold emb names. rewrite Hcall, Hlt. simpl. by rewrite andb_true_r.
Qed.

(** C6, as amended: when the loop of [marshalObject] reaches a field that
    it does not skip (by the "-" sentinel, the omit-empty check or the
    unexported-field check) and whose non-empty since tag does not parse
    as a version -- or whose non-empty until tag does not parse, the since
    check having passed without incident -- the call returns the parse
    error and no mapping, without walking the field's value and without
    looking at the fields after it; when the record is the input of
    [Marshal], [Marshal] returns that error. *)
Theorem unparsable_version_tag_aborts walk options ms pre field x post groups
    parents0 embeddedParents dest parents msg :
  let record := reflect.StructVal ms (pre ++ (field, x) :: post) in
  let val := reflect.Val (negb (reflect.Exported field)) x in
  let since := reflect.Tag_Get (reflect.Tag field) "since" in
  let until := reflect.Tag_Get (reflect.Tag field) "until" in
  marshalFields walk options groups embeddedParents (reflect.Val false record)
    (map fst pre) 0 ∅ parents0 = (Return dest, parents) ->
  skipped field val = false ->
  (since <> "" /\ NewVersion since = inr msg)
  \/ ((exists s, shouldShowFromSince options field = Return s)
      /\ until <> "" /\ NewVersion until = inr msg) ->
  marshalObjectWith walk options (Some record) groups parents0 embeddedParents
  = (Fail (ErrorString msg), parents)
  /\ (forall fuel,
        walk = marshalValue fuel ->
        groups = incrementGroups ∅ (Groups options) -> parents0 = ∅ ->
        embeddedParents = false ->
        Marshal fuel options (Some record) = Fail (ErrorString msg)).
Proof.
  intros record val since until Hpre Hskip Htag.
  assert (marshalObjectWith walk options (Some record) groups parents0 embeddedParents
          = (Fail (ErrorString msg), parents)) as Hcall.
  { subst record. rewrite (marshalObjectWith_reaches _ _ _ _ _ _ _ _ _ _ _ _ Hpre).
    unfold marshalField. fold val. rewrite Hskip.
    destruct Htag as [[Hne Hbad]|[[s Hs] [Hne Hbad]]].
    - unfold shouldShowFromSince. by rewrite (versionCheck_unparsable _ _ _ msg).
    - rewrite Hs. unfold shouldShowFromUntil.
      by rewrite (versionCheck_unparsable _ _ _ msg). }
  split; [done|]. intros fuel -> -> -> ->. unfold Marshal, marshalObject.
  by rewrite Hcall.
Qed.

(** C9, as amended: with a target version in [Options], the comparison
    against a tag that parses is defined.  With [ApiVersion] nil, when the
    loop of [marshalObject] reaches a field that it does not skip and
    whose since tag parses as a version -- or which has no since tag and
    whose until tag parses -- the call panics: it returns neither a node
    nor an error. *)
Theorem nil_api_version_panics walk options ms pre field x post groups
    parents0 embeddedParents dest parents ver :
  let record := reflect.StructVal ms (pre ++ (field, x) :: post) in
  let val := reflect.Val (negb (reflect.Exported field)) x in
  let since := reflect.Tag_Get (reflect.Tag field) "since" in
  let until := reflect.Tag_Get (reflect.Tag field) "until" in
  marshalFields walk options groups embeddedParents (reflect.Val false record)
    (map fst pre) 0 ∅ parents0 = (Return dest, parents) ->
  skipped field val = false ->
  (since <> "" /\ NewVersion since = inl ver)
  \/ (since = "" /\ until <> "" /\ NewVersion until = inl ver) ->
  (ApiVersion options = None ->
   marshalObjectWith walk options (Some record) groups parents0 embeddedParents
   = (Panic NilVersion, parents)
   /\ forall fuel,
        walk = marshalValue fuel ->
        groups = incrementGroups ∅ (Groups options) -> parents0 = ∅ ->
        embeddedParents = false ->
        Marshal fuel options (Some record) = Panic NilVersion)
  /\ (forall V, ApiVersion options = Some V ->
        (since <> "" -> shouldShowFromSince options field
                        = Return (negb (LessThan V ver)))
        /\ (since = "" -> shouldShowFromUntil options field
                          = Return (negb (GreaterThan V ver)))).
Proof.
  intros record val since until Hpre Hskip Htag. split.
  - intros Hnil.
    assert (marshalObjectWith walk options (Some record) groups parents0
              embeddedParents = (Panic NilVersion, parents)) as Hcall.
    { subst record.
      rewrite (marshalObjectWith_reaches _ _ _ _ _ _ _ _ _ _ _ _ Hpre).
      unfold marshalField. fold val. rewrite Hskip.
      destruct Htag as [[Hne Hver]|(Hnone & Hne & Hver)].
      - unfold shouldShowFromSince. by rewrite (versionCheck_nil _ _ _ ver).
      - unfold shouldShowFromSince, shouldShowFromUntil. fold since. rewrite Hnone.
        rewrite versionCheck_absent. simpl. fold until.
        by rewrite (versionCheck_nil _ _ _ ver). }
    split; [done|]. intros fuel -> -> -> ->. unfold Marshal, marshalObject.
    by rewrite Hcall.
  - intros V HV. destruct Htag as [[Hne Hver]|(Hnone & Hne & Hver)]; split; try done.
    + intros _. by apply versionCheck_parsed.
    + intros _. by apply versionCheck_parsed.
Qed.

End Fields.

(** ** The claims about the map branch of [marshalValue] *)

Section Mappings.
Context `{VL : VersionLib} {MS : Marshallers} {RT : Runtime}.

Lemma MapKeys_nil : MapKeys [] = [].
Proof. apply Permutation_nil. symmetry. apply MapKeys_Permutation. Qed.

Lemma MapKeys_cons entries :
  entries <> [] -> exists e rest, MapKeys entries = e :: rest.
Proof.
  intros Hne. destruct (MapKeys entries) as [|e rest] eqn:E; [|by eauto].
  pose proof (MapKeys_Permutation entries) as HP. rewrite E in HP.
  by apply Permutation_nil in HP.
Qed.

(** The map branch, for a map that does not take one of the two ways out
    before it. *)
Lemma marshalValue_mapping fuel options ms kt entries groups parents embeddedParents :
  let m := reflect.MapVal ms kt entries in
  asMarshaller (Some m) = None -> marshalsItself (Some m) = false ->
  marshalValue (S fuel) options (reflect.Val false m) groups parents embeddedParents
  = match MapKeys entries with
    | [] => (Return NNil, parents)
    | _ :: _ =>
        if negb (bool_decide (reflect.keyKind kt = reflect.String))
        then (Fail (MarshalInvalidTypeError (reflect.keyKind kt) (Some m)), parents)
        else andThen
               (marshalEntries (marshalValue fuel) options groups embeddedParents
                  kt false (MapKeys entries) ∅ parents)
               (fun dest parents => (Return (NMap dest), parents))
    end.
Proof.
  intros m Hm Hs. subst m. cbn [marshalValue].
  cbn [reflect.IsValid reflect.CanInterface negb orb reflect.Value_Interface].
  rewrite Hm, Hs. reflexivity.
Qed.

(** C7, as amended: for a keyed mapping with at least one entry and a key
    type that is not of kind string, [marshalValue] returns the
    [MarshalInvalidTypeError] that carries the kind of the key and the
    mapping itself, and no mapping. *)
Theorem non_string_keys_are_rejected fuel options v m kt entries groups parents
    embeddedParents :
  keyedMapping v m kt entries ->
  entries <> [] ->
  reflect.keyKind kt <> reflect.String ->
  marshalValue (S fuel) options v groups parents embeddedParents
  = (Fail (MarshalInvalidTypeError (reflect.keyKind kt) (Some m)), parents).
Proof.
  intros (-> & [ms ->] & Hm & Hs) Hne Hkind. rewrite marshalValue_mapping by done.
  destruct (MapKeys_cons entries Hne) as (e & rest & ->).
  by rewrite bool_decide_eq_false_2.
Qed.

(** C10: for a keyed mapping with no entries, [marshalValue] returns nil
    and no error, whatever the key type: the check of the key kind comes
    after the check for emptiness, and looks at the kind of the first
    key. *)
Theorem empty_mapping_yields_nil fuel options v m kt groups parents embeddedParents :
  keyedMapping v m kt [] ->
  marshalValue (S fuel) options v groups parents embeddedParents
  = (Return NNil, parents).
Proof.
  intros (-> & [ms ->] & Hm & Hs). rewrite marshalValue_mapping by done.
  by rewrite MapKeys_nil.
Qed.

End Mappings.

(** ** Two calls on the same input *)

Ltac view_split := split; [|split; [|split]].

Section Steady.
Context `{VL : VersionLib}.
Implicit Types (walk : walker) (options : Options) (groups p q : groupSet).

Lemma same_view_refl options p : in_range p -> same_view options p p.
Proof. intros H. by view_split. Qed.

Lemma same_view_sym options p q : same_view options p q -> same_view options q p.
Proof. intros (? & ? & H & E). by view_split. Qed.

Lemma same_view_trans options p q r :
  same_view options p q -> same_view options q r -> same_view options p r.
Proof.
  intros (? & ? & H1 & E1) (? & ? & H2 & E2).
  view_split; try done; [|congruence]. intros g. by rewrite H1.
Qed.

Lemma settled_same_view options p p' :
  in_range p -> settled options p p' -> same_view options p p'.
Proof. intros Hp [[Hp' Hc] E]. by view_split. Qed.

Lemma checkGroups_non_empty options p q :
  p <> ∅ -> q <> ∅ -> checkGroups options p = checkGroups options q.
Proof.
  intros Hp Hq. unfold checkGroups, len.
  apply map_size_non_empty_iff in Hp, Hq.
  replace (0 <? size p)%nat with true by (symmetry; apply Nat.ltb_lt; lia).
  replace (0 <? size q)%nat with true by (symmetry; apply Nat.ltb_lt; lia).
  done.
Qed.

Lemma same_view_incrementGroups options p q names :
  same_view options p q ->
  same_view options (incrementGroups p names) (incrementGroups q names).
Proof.
  intros (Hp & Hq & Hc & E).
  split; [by apply in_range_incrementGroups|].
  split; [by apply in_range_incrementGroups|]. split.
  - intros g. by rewrite !count_incrementGroups, Hc.
  - destruct names as [|g rest]; [done|]. simpl.
    apply checkGroups_non_empty; apply incrementGroups_non_empty, insert_non_empty.
Qed.

Lemma same_view_decrementGroups options p q names :
  same_view options p q ->
  same_view options (decrementGroups p names) (decrementGroups q names).
Proof.
  intros (Hp & Hq & Hc & E).
  split; [by apply in_range_decrementGroups|].
  split; [by apply in_range_decrementGroups|]. split.
  - intros g. by rewrite !count_decrementGroups, Hc.
  - destruct names as [|g rest]; [done|]. simpl.
    apply checkGroups_non_empty; apply decrementGroups_non_empty, insert_non_empty.
Qed.

Lemma groupNames_view options p q field :
  same_view options p q -> groupNames options p field = groupNames options q field.
Proof. intros (_ & _ & _ & E). unfold groupNames. by rewrite E. Qed.

Lemma shouldShowFromGroup_view options groups p q embeddedParents field emb :
  same_view options p q ->
  shouldShowFromGroup options groups p embeddedParents field emb
  = shouldShowFromGroup options groups q embeddedParents field emb.
Proof.
  intros (_ & _ & Hc & E). unfold shouldShowFromGroup. rewrite E.
  by rewrite (containsAny_counts p q).
Qed.

Lemma same_view_pushParents options p q emb names :
  same_view options p q ->
  same_view options (pushParents options p emb names) (pushParents options q emb names).
Proof.
  intros H. unfold pushParents. destruct (_ || _); [|done].
  by apply same_view_incrementGroups.
Qed.

Lemma same_view_popParents options p q emb names :
  same_view options p q ->
  same_view options (popParents options p emb names) (popParents options q emb names).
Proof.
  intros H. unfold popParents. destruct (_ || _); [|done].
  by apply same_view_decrementGroups.
Qed.

Lemma in_step_here {A} options (o : outcome A) p q :
  same_view options p q -> in_step options (o, p) (o, q).
Proof. by split. Qed.

Lemma andThen_in_step {A B} options (r r' : run A) (k k' : A -> groupSet -> run B) :
  in_step options r r' ->
  (forall a p q, same_view options p q -> in_step options (k a p) (k' a q)) ->
  in_step options (andThen r k) (andThen r' k').
Proof.
  intros [Heq Hview] Hk. destruct r as [o p], r' as [o' q]. simpl in *. subst o'.
  destruct o; simpl in *; try (split; [done|]; by auto).
  apply Hk, Hview. done.
Qed.

Lemma marshalField_steady walk options groups embeddedParents field val dest p q :
  steady walk -> same_view options p q ->
  in_step options (marshalField walk options groups embeddedParents field val dest p)
    (marshalField walk options groups embeddedParents field val dest q).
Proof.
  intros Hwalk Hpq. unfold marshalField.
  destruct (skipped field val); [by apply in_step_here|].
  rewrite <- (groupNames_view options p q) by done.
  rewrite <- (shouldShowFromGroup_view options groups p q) by done.
  apply andThen_in_step; [by apply in_step_here|]. intros s p1 q1 H1.
  apply andThen_in_step; [by apply in_step_here|]. intros u p2 q2 H2.
  set (names := groupNames options p field).
  set (emb := isEmbeddedField field (followPointer val)).
  pose proof (Hwalk options (followPointer val) groups _ _ emb
                (same_view_pushParents options p2 q2 emb names H2)) as [Heq Hview].
  destruct (walk _ _ _ (pushParents options p2 emb names) _) as [o1 p3].
  destruct (walk _ _ _ (pushParents options q2 emb names) _) as [o2 q3].
  simpl in *. subst o2. destruct o1; simpl in *; split; try done.
  - intros _. by apply same_view_popParents, Hview.
  - intros _. by apply same_view_popParents, Hview.
Qed.

Lemma marshalFields_steady walk options groups embeddedParents v fields i dest p q :
  steady walk -> same_view options p q ->
  in_step options (marshalFields walk options groups embeddedParents v fields i dest p)
    (marshalFields walk options groups embeddedParents v fields i dest q).
Proof.
  intros Hwalk. revert i dest p q.
  induction fields as [|field rest IH]; intros i dest p q Hpq; simpl.
  - by apply in_step_here.
  - destruct (reflect.Field v i) as [val|]; [|by apply in_step_here].
    apply andThen_in_step; [by apply marshalField_steady|].
    intros d p' q' H'. by apply IH.
Qed.

Lemma marshalObjectWith_steady walk options data groups p q embeddedParents :
  steady walk -> same_view options p q ->
  in_step options (marshalObjectWith walk options data groups p embeddedParents)
    (marshalObjectWith walk options data groups q embeddedParents).
Proof.
  intros Hwalk Hpq. unfold marshalObjectWith.
  destruct (reflect.Value_Type _) as [t|]; [|by apply in_step_here].
  destruct (negb _); [by apply Hwalk|].
  apply andThen_in_step; [by apply marshalFields_steady|].
  intros d p' q' H'. by apply in_step_here.
Qed.

Lemma marshalElems_steady walk options groups embeddedParents elems p q :
  steady walk -> same_view options p q ->
  in_step options (marshalElems walk options groups embeddedParents elems p)
    (marshalElems walk options groups embeddedParents elems q).
Proof.
  intros Hwalk. revert p q.
  induction elems as [|elem rest IH]; intros p q Hpq; simpl.
  - by apply in_step_here.
  - apply andThen_in_step; [by apply Hwalk|]. intros d p' q' H'.
    apply andThen_in_step; [by apply IH|]. intros ds p'' q'' H''.
    by apply in_step_here.
Qed.

Lemma marshalEntries_steady walk options groups embeddedParents kt ro entries dest p q :
  steady walk -> same_view options p q ->
  in_step options
    (marshalEntries walk options groups embeddedParents kt ro entries dest p)
    (marshalEntries walk options groups embeddedParents kt ro entries dest q).
Proof.
  intros Hwalk. revert dest p q.
  induction entries as [|[key x] rest IH]; intros dest p q Hpq; simpl.
  - by apply in_step_here.
  - apply andThen_in_step; [by apply Hwalk|]. intros d p' q' H'.
    destruct (keyString kt key); [by apply IH|by apply in_step_here].
Qed.

End Steady.

Section SteadyMarshalValue.
Context `{VL : VersionLib} {MS : Marshallers} {RT : Runtime}.

Lemma marshalValue_steady fuel : steady (marshalValue fuel).
Proof.
  induction fuel as [|fuel IH]; intros options v groups p q embeddedParents Hpq;
    simpl; [by split|].
  destruct (negb (reflect.IsValid v) || negb (reflect.CanInterface v));
    [by apply in_step_here|].
  destruct (reflect.Value_Interface v) as [val|]; [|by apply in_step_here].
  destruct (asMarshaller val); [by apply in_step_here|].
  destruct (marshalsItself val); [by apply in_step_here|].
  match goal with |- context [match ?x with Some _ => _ | None => _ end] =>
    destruct x as [[[v' val'] k]|] end; [|by apply in_step_here].
  destruct (_ || _); [by apply marshalObjectWith_steady|].
  destruct (bool_decide (k = reflect.Slice)).
  { apply andThen_in_step; [by apply marshalElems_steady|].
    intros ds p' q' H'. by apply in_step_here. }
  destruct (bool_decide (k = reflect.Map)); [|by apply in_step_here].
  destruct v' as [|ro []]; try by apply in_step_here.
  destruct (MapKeys entries) eqn:E; [by apply in_step_here|].
  destruct (negb _); [by apply in_step_here|].
  apply andThen_in_step; [by apply marshalEntries_steady|].
  intros ds p' q' H'. by apply in_step_here.
Qed.

End SteadyMarshalValue.

Section DistinctKeys.

Lemma distinct_keys_field ms fields f x :
  distinct_keys (reflect.StructVal ms fields) -> In (f, x) fields -> distinct_keys x.
Proof.
  cbn [distinct_keys]. induction fields as [|[f' x'] rest IH]; [done|].
  intros [Hx Hrest] [[= -> ->]|Hin]; [done|]. by apply IH.
Qed.

Lemma distinct_keys_elem ms elems x :
  distinct_keys (reflect.SliceVal ms elems) -> In x elems -> distinct_keys x.
Proof.
  cbn [distinct_keys]. induction elems as [|x' rest IH]; [done|].
  intros [Hx Hrest] [->|Hin]; [done|]. by apply IH.
Qed.

Lemma distinct_keys_entry ms kt entries key x :
  distinct_keys (reflect.MapVal ms kt entries) -> In (key, x) entries -> distinct_keys x.
Proof.
  cbn [distinct_keys]. intros [_ H]. revert H.
  induction entries as [|[key' x'] rest IH]; [done|].
  intros [Hx Hrest] [[= -> ->]|Hin]; [done|]. by apply IH.
Qed.

Lemma distinct_keys_NoDup ms kt entries :
  distinct_keys (reflect.MapVal ms kt entries) -> NoDup (map fst entries).
Proof. cbn [distinct_keys]. by intros [H _]. Qed.

Lemma Field_distinct_keys v i val :
  Value_distinct_keys v -> reflect.Field v i = Some val -> Value_distinct_keys val.
Proof.
  intros Hv H. destruct v as [|ro g]; [done|].
  destruct g as [| | |ms fields| | |]; try done.
  simpl in H. destruct (nth_error fields i) as [[f x]|] eqn:E; [|done].
  injection H as <-. apply nth_error_In in E.
  exact (distinct_keys_field ms fields f x Hv E).
Qed.

Lemma Elem_distinct_keys v : Value_distinct_keys v -> Value_distinct_keys (reflect.Elem v).
Proof. by destruct v as [|ro []]. Qed.

Lemma followPointer_distinct_keys val :
  Value_distinct_keys val -> Value_distinct_keys (followPointer val).
Proof. unfold followPointer. case_bool_decide; [apply Elem_distinct_keys|done]. Qed.

Lemma Interface_distinct_keys v val :
  Value_distinct_keys v -> reflect.Value_Interface v = Some val ->
  iface_distinct_keys val.
Proof. destruct v as [|ro []]; try done; by intros H [= <-]. Qed.

Lemma Indexes_distinct_keys v :
  Value_distinct_keys v -> Forall Value_distinct_keys (reflect.Indexes v).
Proof.
  intros Hv. destruct v as [|ro []]; try by constructor.
  cbn [reflect.Indexes]. apply Forall_forall. intros x Hx.
  apply list_elem_of_In, in_map_iff in Hx as (g & <- & Hg).
  exact (distinct_keys_elem ms elems g Hv Hg).
Qed.

Lemma keyString_PStr kt key k : keyString kt key = Some k -> key = reflect.PStr k.
Proof.
  destruct key; try done. simpl. destruct (reflect.keyIsString kt); [|done].
  by intros [= ->].
Qed.

End DistinctKeys.

Section Agree.
Context `{VL : VersionLib}.
Implicit Types (walk : walker) (options : Options) (groups p q : groupSet).

Lemma follows_here {A} options (o : outcome A) p q :
  same_view options p q -> follows options (o, p) (o, q).
Proof. intros H a Ha. by split. Qed.

Lemma andThen_follows {A B} options (r r' : run A) (k k' : A -> groupSet -> run B) :
  follows options r r' ->
  (forall a p q, same_view options p q -> follows options (k a p) (k' a q)) ->
  follows options (andThen r k) (andThen r' k').
Proof.
  intros Hr Hk b Hb. destruct r as [[a|e|w|] p]; simpl in Hb; try done.
  destruct (Hr a eq_refl) as [Ha Hview]. destruct r' as [o q]. simpl in *. subst o.
  simpl. by apply Hk.
Qed.

Lemma marshalField_agree walk1 walk2 options groups embeddedParents field val dest p q :
  agree walk1 walk2 -> Value_distinct_keys val -> same_view options p q ->
  follows options (marshalField walk1 options groups embeddedParents field val dest p)
    (marshalField walk2 options groups embeddedParents field val dest q).
Proof.
  intros Hwalk Hval Hpq. unfold marshalField.
  destruct (skipped field val); [by apply follows_here|].
  rewrite <- (groupNames_view options p q) by done.
  rewrite <- (shouldShowFromGroup_view options groups p q) by done.
  apply andThen_follows; [by apply follows_here|]. intros s p1 q1 H1.
  apply andThen_follows; [by apply follows_here|]. intros u p2 q2 H2.
  set (names := groupNames options p field).
  set (emb := isEmbeddedField field (followPointer val)).
  pose proof (Hwalk options (followPointer val) groups _ _ emb
                (followPointer_distinct_keys val Hval)
                (same_view_pushParents options p2 q2 emb names H2)) as Hcall.
  destruct (walk1 _ _ _ (pushParents options p2 emb names) _) as [o1 p3].
  destruct (walk2 _ _ _ (pushParents options q2 emb names) _) as [o2 q3].
  intros d Hd. destruct o1 as [v| | |]; simpl in Hd; try done.
  destruct (Hcall v eq_refl) as [Ho2 Hview]. simpl in *. subst o2. simpl.
  split; [done|]. by apply same_view_popParents.
Qed.

Lemma marshalFields_agree walk1 walk2 options groups embeddedParents v fields i dest p q :
  agree walk1 walk2 -> Value_distinct_keys v -> same_view options p q ->
  follows options (marshalFields walk1 options groups embeddedParents v fields i dest p)
    (marshalFields walk2 options groups embeddedParents v fields i dest q).
Proof.
  intros Hwalk Hv. revert i dest p q.
  induction fields as [|field rest IH]; intros i dest p q Hpq; simpl.
  - by apply follows_here.
  - destruct (reflect.Field v i) as [val|] eqn:E; [|by apply follows_here].
    apply andThen_follows.
    + apply marshalField_agree; [done| |done]. by eapply Field_distinct_keys.
    + intros d p' q' H'. by apply IH.
Qed.

Lemma marshalObjectWith_agree walk1 walk2 options data groups p q embeddedParents :
  agree walk1 walk2 -> iface_distinct_keys data -> same_view options p q ->
  follows options (marshalObjectWith walk1 options data groups p embeddedParents)
    (marshalObjectWith walk2 options data groups q embeddedParents).
Proof.
  intros Hwalk Hdata Hpq. unfold marshalObjectWith.
  destruct (reflect.Value_Type _) as [t|]; [|by apply follows_here].
  assert (Value_distinct_keys
            (if bool_decide (reflect.Value_Kind (reflect.ValueOf data) = reflect.Ptr)
             then reflect.Elem (reflect.ValueOf data) else reflect.ValueOf data)) as Hv.
  { case_bool_decide; [apply Elem_distinct_keys|]; by destruct data. }
  destruct (negb _); [by apply Hwalk|].
  apply andThen_follows; [by apply marshalFields_agree|].
  intros d p' q' H'. by apply follows_here.
Qed.

Lemma marshalElems_agree walk1 walk2 options groups embeddedParents elems p q :
  agree walk1 walk2 -> Forall Value_distinct_keys elems -> same_view options p q ->
  follows options (marshalElems walk1 options groups embeddedParents elems p)
    (marshalElems walk2 options groups embeddedParents elems q).
Proof.
  intros Hwalk Hall. revert p q.
  induction Hall as [|elem rest Helem Hrest IH]; intros p q Hpq; simpl.
  - by apply follows_here.
  - apply andThen_follows; [by apply Hwalk|]. intros d p' q' H'.
    apply andThen_follows; [by apply IH|]. intros ds p'' q'' H''.
    by apply follows_here.
Qed.

(** The map loop as a fold that does not look at the parents set. *)
Lemma marshalEntries_pure walk options groups embeddedParents kt ro entries dest p p' :
  steady walk -> restores walk -> same_view options p p' ->
  fst (marshalEntries walk options groups embeddedParents kt ro entries dest p')
  = entries_pure (fun x => fst (walk options (reflect.Val ro x) groups p embeddedParents))
      kt entries dest.
Proof.
  intros Hsteady Hrestores. revert dest p'.
  induction entries as [|[key x] rest IH]; intros dest p' Hp; simpl; [done|].
  destruct (Hsteady options (reflect.Val ro x) groups p p' embeddedParents Hp)
    as [Heq _].
  pose proof (Hrestores options (reflect.Val ro x) groups p' embeddedParents) as Hset.
  destruct (walk options (reflect.Val ro x) groups p' embeddedParents) as [o p''].
  simpl in *. rewrite Heq. destruct o as [d| | |]; simpl; try done.
  destruct (keyString kt key); [|done]. apply IH.
  assert (in_range p') as Hin by (by destruct Hp as (_ & ? & _)).
  eapply same_view_trans; [exact Hp|].
  apply settled_same_view; [done|]. by apply Hset.
Qed.

(** When the fold returns, it returns the same map for every order of
    the entries, their keys being distinct. *)
Lemma entries_pure_Permutation f kt entries1 entries2 :
  Permutation entries1 entries2 -> NoDup (map fst entries1) ->
  forall dest d,
    entries_pure f kt entries1 dest = Return d ->
    entries_pure f kt entries2 dest = Return d.
Proof.
  induction 1 as [|[key x] l l' HP IH|[key1 x1] [key2 x2] l|l l' l'' HP1 IH1 HP2 IH2];
    intros Hnd dest d; simpl.
  - done.
  - destruct (f x); try done. destruct (keyString kt key); [|done].
    apply IH. by apply NoDup_cons in Hnd as [_ Hnd].
  - destruct (f x1) as [d1| | |], (f x2) as [d2| | |],
             (keyString kt key1) as [k1|] eqn:E1,
             (keyString kt key2) as [k2|] eqn:E2; try done.
    apply keyString_PStr in E1, E2. subst. simpl in Hnd.
    apply NoDup_cons in Hnd as [Hne _].
    rewrite insert_insert_ne; [done|]. intros ->. apply Hne. left.
  - intros H. apply IH2, IH1; try done.
    by rewrite <- (Permutation_map fst HP1).
Qed.

Lemma entries_pure_agree (f1 f2 : reflect.GoValue -> outcome Node) kt entries :
  Forall (fun e => forall d, f1 (snd e) = Return d -> f2 (snd e) = Return d) entries ->
  forall dest d,
    entries_pure f1 kt entries dest = Return d ->
    entries_pure f2 kt entries dest = Return d.
Proof.
  induction 1 as [|[key x] rest Hx Hrest IH]; intros dest d; simpl; [done|].
  destruct (f1 x) as [d1| | |] eqn:E1; try done. simpl in Hx.
  rewrite (Hx d1 E1). destruct (keyString kt key); [|done]. apply IH.
Qed.

Lemma marshalEntries_agree walk1 walk2 options groups embeddedParents kt ro
    entries1 entries2 dest p q :
  steady walk1 -> restores walk1 -> steady walk2 -> restores walk2 ->
  agree walk1 walk2 ->
  Permutation entries1 entries2 -> NoDup (map fst entries1) ->
  Forall (fun e => distinct_keys (snd e)) entries1 ->
  same_view options p q ->
  follows options
    (marshalEntries walk1 options groups embeddedParents kt ro entries1 dest p)
    (marshalEntries walk2 options groups embeddedParents kt ro entries2 dest q).
Proof.
  intros Hs1 Hr1 Hs2 Hr2 Hagree HP Hnd Hall Hpq d Hd.
  pose proof Hpq as (Hp & Hq & _).
  assert (fst (marshalEntries walk2 options groups embeddedParents kt ro entries2 dest q)
          = Return d) as Hd2.
  { rewrite (marshalEntries_pure walk2 _ _ _ _ _ _ _ q q)
      by (try done; by apply same_view_refl).
    rewrite (marshalEntries_pure walk1 _ _ _ _ _ _ _ p p) in Hd
      by (try done; by apply same_view_refl).
    apply (entries_pure_Permutation _ _ _ _ HP Hnd) in Hd.
    revert Hd. apply entries_pure_agree.
    apply Forall_forall. intros [key x] Hx n Hn. simpl in *.
    assert (distinct_keys x) as Hdk.
    { rewrite HP in Hall. by apply (proj1 (Forall_forall _ _) Hall (key, x)). }
    by destruct (Hagree options (reflect.Val ro x) groups p q embeddedParents
                   Hdk Hpq n Hn). }
  split; [done|].
  pose proof (marshalEntries_restores walk1 options groups embeddedParents kt ro
                entries1 dest p Hr1 Hp) as Hset1.
  pose proof (marshalEntries_restores walk2 options groups embeddedParents kt ro
                entries2 dest q Hr2 Hq) as Hset2.
  unfold run_settled in *. rewrite Hd in Hset1. rewrite Hd2 in Hset2.
  eapply same_view_trans; [|apply settled_same_view; [exact Hq|by apply Hset2]].
  eapply same_view_trans; [|exact Hpq].
  apply same_view_sym, settled_same_view; [done|by apply Hset1].
Qed.

End Agree.

Section Determinism.
Context `{VL : VersionLib} {MS : Marshallers}.

(** What a run under one runtime returns, a run under any other runtime
    returns too, whatever the order in which each hands out map keys. *)
Lemma marshalValue_agree (RT1 RT2 : Runtime) fuel :
  agree (marshalValue (RT:=RT1) fuel) (marshalValue (RT:=RT2) fuel).
Proof.
  induction fuel as [|fuel IH]; intros options v groups p q embeddedParents Hv Hpq;
    simpl; [by intros n|].
  destruct (negb (reflect.IsValid v) || negb (reflect.CanInterface v));
    [by apply follows_here|].
  destruct (reflect.Value_Interface v) as [val|] eqn:Eval; [|by apply follows_here].
  destruct (asMarshaller val); [by apply follows_here|].
  destruct (marshalsItself val); [by apply follows_here|].
  match goal with |- context [match ?x with Some _ => _ | None => _ end] =>
    destruct x as [[[v' val'] k]|] eqn:E end; [|by apply follows_here].
  assert (Value_distinct_keys v' /\ reflect.Value_Interface v' = Some val')
    as [Hv' Hval'].
  { case_bool_decide.
    - destruct (reflect.Value_Interface (reflect.Elem v)) eqn:E0; [|done].
      injection E as <- <- <-. split; [by apply Elem_distinct_keys|done].
    - injection E as <- <- <-. done. }
  clear E.
  destruct (_ || _).
  { apply marshalObjectWith_agree; [done| |done].
    by eapply Interface_distinct_keys. }
  destruct (bool_decide (k = reflect.Slice)).
  { apply andThen_follows.
    - apply marshalElems_agree; [done| |done]. by apply Indexes_distinct_keys.
    - intros ds p' q' H'. by apply follows_here. }
  destruct (bool_decide (k = reflect.Map)); [|by apply follows_here].
  destruct v' as [|ro []]; try by apply follows_here.
  pose proof (MapKeys_Permutation (Runtime:=RT1) entries) as HP1.
  pose proof (MapKeys_Permutation (Runtime:=RT2) entries) as HP2.
  destruct (MapKeys (Runtime:=RT1) entries) as [|e1 l1] eqn:E1.
  { apply Permutation_nil in HP1. subst entries.
    symmetry in HP2. apply Permutation_nil in HP2. rewrite HP2.
    by apply follows_here. }
  destruct (MapKeys (Runtime:=RT2) entries) as [|e2 l2] eqn:E2.
  { apply Permutation_nil in HP2. subst entries.
    symmetry in HP1. by apply Permutation_nil in HP1. }
  destruct (negb _); [by apply follows_here|].
  apply andThen_follows; [|intros ds p' q' H'; by apply follows_here].
  apply marshalEntries_agree; try done;
    try apply marshalValue_steady; try apply marshalValue_restores.
  - by rewrite HP1, HP2.
  - rewrite HP1. by apply (distinct_keys_NoDup ms kt).
  - rewrite HP1. apply Forall_forall. intros [key x] Hx.
    apply list_elem_of_In in Hx. exact (distinct_keys_entry ms kt entries key x Hv' Hx).
Qed.

(** C8, as amended: for every Options value and every input value (a Go
    map holding one entry per key), when one call to [Marshal] returns an
    output tree, every call with the same Options and the same input
    returns that very tree -- mapping nodes being maps, compared without
    regard to the order of entries, and sequence nodes lists, compared in
    order -- and when one call returns an error, no call returns a tree.
    Which error a failing call returns is left open: it is the one of the
    failing map entry that the runtime happens to hand out first.  With
    fuel above the height of the input neither call stops for lack of
    fuel. *)
Theorem marshal_returns_one_tree (RT1 RT2 : Runtime) fuel options data :
  iface_distinct_keys data ->
  (forall n, Marshal (RT:=RT1) fuel options data = Return n ->
             Marshal (RT:=RT2) fuel options data = Return n)
  /\ (forall e, Marshal (RT:=RT1) fuel options data = Fail e ->
                forall n, Marshal (RT:=RT2) fuel options data <> Return n)
  /\ ((iface_height data < fuel)%nat ->
      Marshal (RT:=RT1) fuel options data <> OutOfFuel
      /\ Marshal (RT:=RT2) fuel options data <> OutOfFuel).
Proof.
  intros Hdata.
  assert (forall R1 R2 n, Marshal (RT:=R1) fuel options data = Return n ->
                          Marshal (RT:=R2) fuel options data = Return n) as H.
  { intros R1 R2 n Hn. unfold Marshal, marshalObject in *.
    by destruct (marshalObjectWith_agree (marshalValue (RT:=R1) fuel)
                   (marshalValue (RT:=R2) fuel) options data
                   (incrementGroups ∅ (Groups options)) ∅ ∅ false
                   (marshalValue_agree R1 R2 fuel) Hdata
                   (same_view_refl options ∅ in_range_empty) n Hn). }
  split; [apply H|]. split.
  - intros e He n Hn. apply (H RT2 RT1) in Hn. congruence.
  - intros Hfuel. split; by apply marshalObject_fuel.
Qed.

End Determinism.
(** ** The theorems at concrete inputs *)

(** The three scenarios of the specification. *)
Example scenario_skip_tag :
  Marshal (RT:=listedOrder) 2 (opts ["admin"] None true false) (Some scenarioSkip)
  = Return (NMap (<["A" := NVal (str "x")]> {[ "C" := NVal (str "y") ]})).
Proof. vm_compute. reflexivity. Qed.

Example scenario_embedded_record :
  Marshal (RT:=listedOrder) 3 unfiltered (Some scenarioEmbedded)
  = Return (NMap (<["X" := NVal (int 7)]> {[ "Y" := NVal (str "y") ]})).
Proof. vm_compute. reflexivity. Qed.

Example scenario_integer_keys :
  Marshal (RT:=listedOrder) 2 unfiltered (Some ledger)
  = Fail (MarshalInvalidTypeError reflect.Int (Some ledger)).
Proof. vm_compute. reflexivity. Qed.

(** C2 at work: Secret is hidden from the group admin, its value is a
    map with integer keys, and the call fails with the error of that map. *)
Lemma hidden_field_is_still_walked_witness :
  shouldShowFromGroup adminOnly (activation adminOnly) ∅ false secretField false = false
  /\ marshalObject (RT:=listedOrder) 2 adminOnly (Some vault) (activation adminOnly) ∅ false
     = (Fail (MarshalInvalidTypeError reflect.Int (Some ledger)), ∅).
Proof.
  split; [reflexivity|].
  pose proof (hidden_field_is_still_walked (marshalValue (RT:=listedOrder) 2) adminOnly
                (activation adminOnly) false secretField (reflect.Val false ledger)
                ∅ ∅ true true eq_refl eq_refl eq_refl) as (_ & _ & H).
  apply (H (MarshalInvalidTypeError reflect.Int (Some ledger)) ∅ plain [] ledger [] ∅);
    reflexivity.
Defined.

(** C3 at work: group a is pushed and popped around Inner; it stays in
    the parents set as a key, with the count 0 it had on entry. *)
Lemma parents_set_is_balanced_witness :
  in_range ∅
  /\ snd (marshalObject (RT:=listedOrder) 3 inheritA (Some nested) (activation inheritA)
            ∅ false) !! "a" = Some 0
  /\ forall group,
       count (snd (marshalObject (RT:=listedOrder) 3 inheritA (Some nested)
                     (activation inheritA) ∅ false)) group
       = count ∅ group.
Proof.
  split; [apply in_range_empty|]. split; [reflexivity|].
  pose proof (parents_set_is_balanced (RT:=listedOrder) 3 inheritA (Some nested)
                (activation inheritA) ∅ false in_range_empty) as (H & _ & _).
  apply H. exact I.
Defined.

(** C3 as stated fails: with inheritGroups on and no group activated,
    group visibility is not evaluated, the groups the field declares are
    not read, and the recursion into the field is handed a parents set in
    which the declared group a counts 0, not 1; the fields of the nested
    record are walked in unfiltered mode and shown. *)
Lemma declared_groups_not_pushed :
  InheritGroups inheritOnly || isEmbeddedField innerField
                                 (reflect.Val false (record [(fld "X" [], int 7)])) = true
  /\ declaredGroups innerField = ["a"]
  /\ count (incrementGroups ∅ (declaredGroups innerField)) "a" = 1
  /\ count (pushParents inheritOnly ∅ false (groupNames inheritOnly ∅ innerField)) "a" = 0
  /\ marshalObjectWith probe inheritOnly (Some nested) ∅ ∅ false
     = (Return (NMap {[ "Inner" := NVal (int 0) ]}), ∅)
  /\ Marshal (RT:=listedOrder) 3 inheritOnly (Some nested)
     = Return (NMap {[ "Inner" := NMap {[ "X" := NVal (int 7) ]} ]}).
Proof. repeat split; vm_compute; reflexivity. Qed.

(** C4 at work: the fields of the embedded Base land in the output
    mapping of the record, X replacing the X that was there. *)
Lemma embedded_field_is_flattened_witness :
  isEmbeddedField baseField (followPointer (reflect.Val false base)) = true
  /\ marshalField (marshalValue (RT:=listedOrder) 2) unfiltered ∅ false baseField
       (reflect.Val false base) {[ "X" := NVal (str "old") ]} ∅
     = (Return (<["X" := NVal (int 7)]> {[ "Z" := NVal (str "z") ]}), ∅).
Proof.
  split; [reflexivity|].
  pose proof (embedded_field_is_flattened (marshalValue (RT:=listedOrder) 2) unfiltered
                ∅ false baseField (reflect.Val false base)
                {[ "X" := NVal (str "old") ]} ∅ true true
                eq_refl eq_refl eq_refl eq_refl) as [_ H].
  rewrite (H (NMap (<["X" := NVal (int 7)]> {[ "Z" := NVal (str "z") ]})) ∅).
  - vm_compute. reflexivity.
  - vm_compute. reflexivity.
Defined.

(** C5 at work: for API version 2, a field since 3 is left out and a
    field since 2 is stored. *)
Lemma version_visibility_witness :
  ApiVersion versionTwo = Some 2%nat
  /\ shouldShowFromSince versionTwo sinceThree = Return false
  /\ Marshal (RT:=listedOrder) 2 versionTwo (Some versioned)
     = Return (NMap {[ "A" := NVal (str "a") ]})
  /\ marshalField (marshalValue (RT:=listedOrder) 1) versionTwo ∅ false
       (fld "B" [("since", "2")]) (reflect.Val false (str "b"))
       {[ "A" := NVal (str "a") ]} ∅
     = (Return (<["B" := NVal (str "b")]> {[ "A" := NVal (str "a") ]}), ∅).
Proof.
  split; [reflexivity|].
  pose proof (version_visibility versionTwo sinceThree 2%nat eq_refl) as (Hs & _ & _).
  split; [apply (Hs 3%nat); [discriminate|reflexivity]|].
  split; [vm_compute; reflexivity|].
  pose proof (version_visibility versionTwo (fld "B" [("since", "2")]) 2%nat eq_refl)
    as (_ & _ & _ & Hf).
  rewrite (Hf 2%nat (marshalValue (RT:=listedOrder) 1) ∅ false
             (reflect.Val false (str "b")) {[ "A" := NVal (str "a") ]} ∅ true
             (NVal (str "b")) ∅); try reflexivity. discriminate.
Defined.

(** C6 at work: A is stored, B carries a since tag that does not parse,
    and [Marshal] returns the error of the version library. *)
Lemma unparsable_version_tag_aborts_witness :
  NewVersion "soon" = inr "Malformed version: soon"
  /\ Marshal (RT:=listedOrder) 2 unfiltered (Some broken)
     = Fail (ErrorString "Malformed version: soon").
Proof.
  split; [reflexivity|].
  pose proof (unparsable_version_tag_aborts (RT:=listedOrder)
                (marshalValue (RT:=listedOrder) 2) unfiltered plain
                [(fld "A" [], str "a")] sinceSoon (str "b") [] (activation unfiltered)
                ∅ false {[ "A" := NVal (str "a") ]} ∅ "Malformed version: soon"
                eq_refl eq_refl) as H.
  destruct H as [_ H].
  - left. split; [discriminate|reflexivity].
  - apply (H 2%nat); reflexivity.
Defined.

(** C6 as stated fails: a record whose only field carries a since tag that
    does not parse, the field being skipped by the "-" sentinel, is
    marshalled without error. *)
Lemma skipped_field_with_unparsable_tag :
  NewVersion (reflect.Tag_Get (reflect.Tag skippedSoon) "since")
  = inr "Malformed version: soon"
  /\ Marshal (RT:=listedOrder) 2 unfiltered (Some harmless) = Return (NMap ∅).
Proof. split; vm_compute; reflexivity. Qed.

(** C9 at work: a since tag that parses and no API version. *)
Lemma nil_api_version_panics_witness :
  ApiVersion unfiltered = None
  /\ Marshal (RT:=listedOrder) 2 unfiltered (Some versioned) = Panic NilVersion.
Proof.
  split; [reflexivity|].
  pose proof (nil_api_version_panics (RT:=listedOrder)
                (marshalValue (RT:=listedOrder) 2) unfiltered plain
                [(fld "A" [], str "a")] sinceThree (str "b") [] ∅ ∅ false
                {[ "A" := NVal (str "a") ]} ∅ 3%nat eq_refl eq_refl) as H.
  destruct H as [H _].
  - left. split; [discriminate|reflexivity].
  - destruct (H eq_refl) as [_ HM]. apply (HM 2%nat); reflexivity.
Defined.

(** C9 as stated fails: with [ApiVersion] nil, a since tag that does not
    parse makes the call return a proper error, and a since tag on a
    skipped field lets it return a node. *)
Lemma nil_api_version_with_result :
  ApiVersion unfiltered = None
  /\ reflect.Tag_Get (reflect.Tag sinceSoon) "since" <> ""
  /\ Marshal (RT:=listedOrder) 2 unfiltered (Some broken)
     = Fail (ErrorString "Malformed version: soon")
  /\ reflect.Tag_Get (reflect.Tag skippedThree) "since" <> ""
  /\ Marshal (RT:=listedOrder) 2 unfiltered (Some (record [(skippedThree, str "b")]))
     = Return (NMap ∅).
Proof. repeat split; try discriminate; vm_compute; reflexivity. Qed.

(** C7 at work: [map[int]string{1: "x"}]. *)
Lemma non_string_keys_are_rejected_witness :
  reflect.keyKind intKeys <> reflect.String
  /\ marshalValue (RT:=listedOrder) 1 unfiltered (reflect.Val false ledger) ∅ ∅ false
     = (Fail (MarshalInvalidTypeError reflect.Int (Some ledger)), ∅).
Proof.
  split; [discriminate|].
  apply (non_string_keys_are_rejected (RT:=listedOrder) 0 unfiltered
           (reflect.Val false ledger) ledger intKeys [(reflect.PInt 1, str "x")]
           ∅ ∅ false);
    [|discriminate..].
  split; [reflexivity|]. split; [by exists plain|]. split; reflexivity.
Defined.

(** C7 as stated fails: a mapping with an integer key type and no entries
    is marshalled to nil without error. *)
Lemma empty_mapping_with_int_keys :
  keyedMapping (reflect.Val false emptyLedger) emptyLedger intKeys []
  /\ reflect.keyKind intKeys <> reflect.String
  /\ marshalValue (RT:=listedOrder) 1 unfiltered (reflect.Val false emptyLedger) ∅ ∅ false
     = (Return NNil, ∅).
Proof.
  split; [|split; [discriminate|reflexivity]].
  split; [reflexivity|]. split; [by exists plain|]. split; reflexivity.
Qed.

(** C10 at work: [map[int]string{}]. *)
Lemma empty_mapping_yields_nil_witness :
  keyedMapping (reflect.Val false emptyLedger) emptyLedger intKeys []
  /\ marshalValue (RT:=reverseOrder) 1 unfiltered (reflect.Val false emptyLedger) ∅ ∅ false
  = (Return NNil, ∅).
Proof.
  assert (keyedMapping (reflect.Val false emptyLedger) emptyLedger intKeys []) as H.
  { split; [reflexivity|]. split; [by exists plain|]. split; reflexivity. }
  split; [exact H|].
  exact (empty_mapping_yields_nil (RT:=reverseOrder) 0 unfiltered
           (reflect.Val false emptyLedger) emptyLedger intKeys ∅ ∅ false H).
Defined.

(** C8 at work: the two entries of a map, handed out in either order,
    make the same output mapping. *)
Lemma marshal_returns_one_tree_witness :
  iface_distinct_keys (Some twoEntries)
  /\ Marshal (RT:=listedOrder) 2 unfiltered (Some twoEntries)
     = Return (NMap (<["a" := NVal (int 1)]> {[ "b" := NVal (int 2) ]}))
  /\ Marshal (RT:=reverseOrder) 2 unfiltered (Some twoEntries)
     = Return (NMap (<["a" := NVal (int 1)]> {[ "b" := NVal (int 2) ]})).
Proof.
  assert (iface_distinct_keys (Some twoEntries)) as Hkeys.
  { split; [|done]. apply (bool_decide_unpack _). vm_compute. exact I. }
  split; [exact Hkeys|]. split; [vm_compute; reflexivity|].
  destruct (marshal_returns_one_tree listedOrder reverseOrder 2 unfiltered
              (Some twoEntries) Hkeys) as [H _].
  apply H. vm_compute. reflexivity.
Defined.

(** C8 as stated fails: two calls with the same Options on the same map of
    two failing entries return two different errors when the runtime
    hands out the keys in two different orders. *)
Lemma two_calls_two_errors :
  Marshal (RT:=listedOrder) 4 unfiltered (Some twoFailures)
  = Fail (ErrorString "Malformed version: x")
  /\ Marshal (RT:=reverseOrder) 4 unfiltered (Some twoFailures)
     = Fail (ErrorString "Malformed version: y")
  /\ Marshal (RT:=listedOrder) 4 unfiltered (Some twoFailures)
     <> Marshal (RT:=reverseOrder) 4 unfiltered (Some twoFailures).
Proof. repeat split; try (vm_compute; reflexivity). vm_compute. discriminate. Qed.

(** * Further properties of the package *)

(** ** group_set.go *)

Section GroupSetExtras.
Implicit Types (s : groupSet) (names : list string) (group : string).

(** X1: a push adds to the count of every name the number of times the
    name occurs in the batch, and a pop subtracts it, as long as the
    result is a Go [int]; a name that does not occur keeps its count. *)
Theorem push_and_pop_count_occurrences s names group :
  in_range s ->
  (count s group + occurrences group names < 2 ^ 63 ->
   count (incrementGroups s names) group = count s group + occurrences group names)
  /\ (- 2 ^ 63 <= count s group - occurrences group names ->
      count (decrementGroups s names) group = count s group - occurrences group names)
  /\ (group ∉ names ->
      count (incrementGroups s names) group = count s group
      /\ count (decrementGroups s names) group = count s group).
Proof.
  intros Hs. pose proof (in_range_count s group Hs) as Hc.
  pose proof (occurrences_bounds group names) as Ho.
  split; [|split].
  - intros Hup. rewrite count_incrementGroups by done. apply wrap_int_small. lia.
  - intros Hlow. rewrite count_decrementGroups by done. apply wrap_int_small. lia.
  - intros Hnotin.
    assert (occurrences group names = 0) as Hz.
    { destruct (Z.eq_dec (occurrences group names) 0) as [|Hne]; [done|].
      exfalso. apply Hnotin, occurrences_positive. lia. }
    rewrite count_incrementGroups, count_decrementGroups, Hz by done.
    rewrite Z.add_0_r, Z.sub_0_r. split; by apply wrap_int_small.
Qed.

(** X2: pushes and pops of different batches commute: popping [b] after
    pushing [a] leaves every count as pushing [a] after popping [b] does. *)
Theorem push_and_pop_commute s a b group :
  in_range s ->
  count (decrementGroups (incrementGroups s a) b) group
  = count (incrementGroups (decrementGroups s b) a) group.
Proof.
  intros Hs.
  rewrite count_decrementGroups by (by apply in_range_incrementGroups).
  rewrite count_incrementGroups by done.
  rewrite (count_incrementGroups a) by (by apply in_range_decrementGroups).
  rewrite count_decrementGroups by done.
  rewrite wrap_int_sub_l, wrap_int_add_l. f_equal. lia.
Qed.

(** X3: a group set never forgets a name: after a push or a pop its keys
    are the keys it had and the names of the batch, also when a count is
    back at zero. *)
Theorem group_set_keeps_its_keys s names :
  dom (incrementGroups s names) = dom s ∪ list_to_set names
  /\ dom (decrementGroups s names) = dom s ∪ list_to_set names
  /\ dom (decrementGroups (incrementGroups s names) names) = dom s ∪ list_to_set names.
Proof.
  assert (forall names s, dom (incrementGroups s names) = dom s ∪ list_to_set names) as Hi.
  { clear. induction names as [|g rest IH]; intros s; simpl.
    - by rewrite (right_id_L ∅ (∪)).
    - rewrite IH, dom_insert_L, (assoc_L (∪)). f_equal. apply (comm_L (∪)). }
  assert (forall names s, dom (decrementGroups s names) = dom s ∪ list_to_set names) as Hd.
  { clear. induction names as [|g rest IH]; intros s; simpl.
    - by rewrite (right_id_L ∅ (∪)).
    - rewrite IH, dom_insert_L, (assoc_L (∪)). f_equal. apply (comm_L (∪)). }
  split; [apply Hi|]. split; [apply Hd|].
  by rewrite Hd, Hi, <- (assoc_L (∪)), (idemp_L (∪)).
Qed.

(** X4: [containsAny] holds iff some name of the list has a positive
    count; a name that is absent, or whose count is zero or negative, does
    not make it hold, and no name at all never does. *)
Theorem containsAny_positive_count s names :
  (containsAny s names = true <-> exists group, group ∈ names /\ 0 < count s group)
  /\ containsAny s [] = false
  /\ (forall names', containsAny s (names ++ names')
                     = containsAny s names || containsAny s names').
Proof.
  split; [apply containsAny_intersects|]. split; [done|].
  intros names'. induction names as [|g rest IH]; simpl; [done|].
  by destruct (contains s g).
Qed.

(** X5: in a set built by one push on the empty set, as [Marshal] builds
    the activation set, a name is contained iff it is in the batch, however
    often it is repeated there. *)
Theorem seeded_set_contains_its_names names group :
  Z.of_nat (length names) < 2 ^ 63 ->
  contains (incrementGroups ∅ names) group = true <-> group ∈ names.
Proof. intros Hlen. rewrite contains_active. by apply active_seeded. Qed.

End GroupSetExtras.

(** ** The list helpers of sheriff.go *)

Section ListHelpers.
Implicit Types (a b : list string) (key : string).

Lemma contains_elem_of key b : sheriff.contains key b = true <-> key ∈ b.
Proof.
  induction b as [|x rest IH]; simpl.
  - split; [done|]. intros H. by apply elem_of_nil in H.
  - rewrite elem_of_cons. case_bool_decide; [by split; auto|].
    rewrite IH. split; [by right|]. by intros [|].
Qed.

Lemma listContains_elem_of a b :
  sheriff.listContains a b = true <-> exists key, key ∈ a /\ key ∈ b.
Proof.
  induction a as [|x rest IH]; simpl.
  - split; [done|]. intros (k & H & _). by apply elem_of_nil in H.
  - destruct (sheriff.contains x b) eqn:E.
    + split; [|done]. intros _. exists x. split; [left|]. by apply contains_elem_of.
    + rewrite IH. split.
      * intros (k & H1 & H2). exists k. split; [by right|done].
      * intros (k & H1 & H2). apply elem_of_cons in H1 as [->|H1].
        -- apply contains_elem_of in H2. congruence.
        -- eauto.
Qed.

(** X6: [listContains a b] holds iff the two lists share a string, and
    [contains key b] iff [key] is one of [b]; with an empty list on either
    side both are false. *)
Theorem listContains_shared a b key :
  (sheriff.contains key b = true <-> key ∈ b)
  /\ (sheriff.listContains a b = true <-> exists key, key ∈ a /\ key ∈ b)
  /\ sheriff.listContains [] b = false
  /\ sheriff.listContains a [] = false.
Proof.
  split; [apply contains_elem_of|]. split; [apply listContains_elem_of|].
  split; [done|]. apply not_true_iff_false. rewrite listContains_elem_of.
  intros (k & _ & H). by apply elem_of_nil in H.
Qed.

(** X7: [listContains] does not depend on the order of its arguments. *)
Theorem listContains_comm a b : sheriff.listContains a b = sheriff.listContains b a.
Proof.
  apply eq_true_iff_eq. rewrite !listContains_elem_of.
  split; intros (k & H1 & H2); eauto.
Qed.

(** X8: the counting set that [marshalObject] tests group names against
    answers as [listContains] does on the lists themselves: a set seeded
    with the list [b] contains one of [a] iff [a] and [b] share a name. *)
Theorem seeded_set_agrees_with_listContains a b :
  Z.of_nat (length b) < 2 ^ 63 ->
  containsAny (incrementGroups ∅ b) a = sheriff.listContains a b.
Proof.
  intros Hlen. apply eq_true_iff_eq.
  rewrite containsAny_intersects, listContains_elem_of.
  by apply intersects_seeded.
Qed.

End ListHelpers.

(** ** Records *)

Section RecordExtras.
Context `{VL : VersionLib} {MS : Marshallers} {RT : Runtime}.
Implicit Types (walk : walker) (options : Options) (groups parents : groupSet).

Lemma marshalFields_walkFields walk options groups embeddedParents ro ms pre fs dest parents :
  marshalFields walk options groups embeddedParents
    (reflect.Val ro (reflect.StructVal ms (pre ++ fs))) (map fst fs) (length pre)
    dest parents
  = walkFields walk options groups embeddedParents ro fs dest parents.
Proof.
  revert pre dest parents.
  induction fs as [|[f x] rest IH]; intros pre dest parents; [done|].
  cbn [map fst marshalFields walkFields]. rewrite Field_middle.
  apply andThen_ext. intros d p.
  specialize (IH (pre ++ [(f, x)])%list d p).
  rewrite <- app_assoc, length_app, Nat.add_1_r in IH. exact IH.
Qed.

Lemma marshalObjectWith_walkFields walk options ms fields groups parents embeddedParents :
  marshalObjectWith walk options (Some (reflect.StructVal ms fields))
    groups parents embeddedParents
  = andThen (walkFields walk options groups embeddedParents false fields ∅ parents)
      (fun dest parents => (Return (NMap dest), parents)).
Proof.
  rewrite marshalObjectWith_record.
  by rewrite <- (marshalFields_walkFields _ _ _ _ false ms [] fields).
Qed.

Lemma walkFields_app walk options groups embeddedParents ro fs1 fs2 dest parents :
  walkFields walk options groups embeddedParents ro (fs1 ++ fs2) dest parents
  = andThen (walkFields walk options groups embeddedParents ro fs1 dest parents)
      (walkFields walk options groups embeddedParents ro fs2).
Proof.
  revert dest parents. induction fs1 as [|[f x] rest IH]; intros dest parents; simpl.
  - done.
  - rewrite andThen_assoc. apply andThen_ext. intros d p. apply IH.
Qed.

(** X9: a record is marshalled to a mapping, as the comment on [Marshal]
    promises, and only through its fields: the methods of the record's own
    type are not consulted, and a pointer to the record is marshalled as
    the record. *)
Theorem record_is_marshalled_to_a_mapping fuel options ms ms' fields :
  (forall n, Marshal fuel options (Some (reflect.StructVal ms fields)) = Return n ->
             exists dest, n = NMap dest)
  /\ Marshal fuel options (Some (reflect.StructVal ms' fields))
     = Marshal fuel options (Some (reflect.StructVal ms fields))
  /\ Marshal fuel options (Some (reflect.Pointer ms' (reflect.StructVal ms fields)))
     = Marshal fuel options (Some (reflect.StructVal ms fields)).
Proof.
  unfold Marshal, marshalObject.
  rewrite marshalObjectWith_pointer, !marshalObjectWith_walkFields.
  split; [|by split]. intros n.
  destruct (walkFields _ _ _ _ _ _ _ _) as [[dest| | |] p]; simpl; try done.
  intros [= <-]. by exists dest.
Qed.

(** X10: the nil inputs.  [Marshal] of a nil interface panics; of a nil
    pointer to a record type it panics when the type has a field and
    returns the empty mapping when it has none; of a nil pointer to
    anything else it returns nil. *)
Theorem nil_inputs fuel options ms elem :
  Marshal fuel options None = Panic ZeroValueType
  /\ (reflect.Type_Kind elem = reflect.Struct -> reflect.Type_Fields elem <> [] ->
      Marshal fuel options (Some (reflect.NilPointer ms elem)) = Panic ZeroValueField)
  /\ (reflect.Type_Kind elem = reflect.Struct -> reflect.Type_Fields elem = [] ->
      Marshal fuel options (Some (reflect.NilPointer ms elem)) = Return (NMap ∅))
  /\ (reflect.Type_Kind elem <> reflect.Struct ->
      Marshal (S fuel) options (Some (reflect.NilPointer ms elem)) = Return NNil).
Proof.
  split; [done|]. unfold Marshal, marshalObject, marshalObjectWith.
  cbn [reflect.ValueOf reflect.Value_Type reflect.typeOf reflect.Type_Kind
       reflect.Type_Elem reflect.Value_Kind reflect.kindOf reflect.Elem].
  rewrite !(bool_decide_eq_true_2 (reflect.Ptr = reflect.Ptr)) by done.
  split; [|split].
  - intros Hk Hf. rewrite (bool_decide_eq_true_2 _ Hk). simpl.
    by destruct (reflect.Type_Fields elem).
  - intros Hk Hf. rewrite (bool_decide_eq_true_2 _ Hk), Hf. done.
  - intros Hk. by rewrite (bool_decide_eq_false_2 _ Hk).
Qed.

(** X11: a field that the loop skips -- its name tag is "-", or it is
    unexported, or it carries omitempty and its value is empty -- leaves
    no trace: the record is marshalled as the record without the field. *)
Theorem skipped_field_leaves_no_trace walk options ms pre field x post groups parents
    embeddedParents :
  jsonTag field = "-" \/ reflect.Exported field = false
  \/ (Contains (jsonOpts field) "omitempty" = true
      /\ isEmptyValue (reflect.Val (negb (reflect.Exported field)) x) = true) ->
  marshalObjectWith walk options
    (Some (reflect.StructVal ms (pre ++ (field, x) :: post)))
    groups parents embeddedParents
  = marshalObjectWith walk options (Some (reflect.StructVal ms (pre ++ post)))
      groups parents embeddedParents.
Proof.
  intros Hskip. rewrite !marshalObjectWith_walkFields, !walkFields_app.
  f_equal. apply andThen_ext. intros d p. cbn [walkFields orb].
  unfold marshalField.
  assert (skipped field (reflect.Val (negb (reflect.Exported field)) x) = true) as ->;
    [|done].
  unfold skipped. destruct Hskip as [->|[->|[-> ->]]].
  - done.
  - case_bool_decide; [done|]. by destruct (_ && _).
  - by case_bool_decide.
Qed.

(** What the loop body can do to the output mapping for a field that is
    not anonymous: nothing, or one store under the field's key. *)
Lemma marshalField_named walk options groups embeddedParents field val dest parents
    dest' parents' :
  reflect.Anonymous field = false ->
  marshalField walk options groups embeddedParents field val dest parents
  = (Return dest', parents') ->
  dest' = dest
  \/ (skipped field val = false /\ exists v, dest' = <[jsonTag field := v]> dest).
Proof.
  intros Hanon. unfold marshalField. unfold isEmbeddedField. rewrite Hanon.
  cbn [andb]. destruct (skipped field val); [intros [= <- _]; by left|].
  destruct (shouldShowFromSince options field) as [s| | |]; cbn [andThen]; try done.
  destruct (shouldShowFromUntil options field) as [u| | |]; cbn [andThen]; try done.
  destruct (walk _ _ _ _ _) as [[v| | |] p]; try done.
  intros [= <- _]. unfold store. destruct (_ && _ && _); [|by left].
  right. split; [done|]. exists v. by destruct (asMap v).
Qed.

Lemma walkFields_keys walk options groups embeddedParents ro fs dest parents dest' parents' :
  Forall (fun fx => reflect.Anonymous (fst fx) = false) fs ->
  walkFields walk options groups embeddedParents ro fs dest parents
  = (Return dest', parents') ->
  forall k, k ∈ dom dest' ->
    k ∈ dom dest
    \/ (k <> "-" /\ exists field, field ∈ map fst fs /\ jsonTag field = k).
Proof.
  intros Hall. revert dest parents.
  induction Hall as [|[f x] rest Hf Hrest IH]; intros dest parents; simpl.
  - intros [= <- _] k Hk. by left.
  - destruct (marshalField _ _ _ _ _ _ _ _) as [[d| | |] p] eqn:E; cbn [andThen];
      try done.
    intros Hwalk k Hk. simpl in Hf.
    destruct (IH d p Hwalk k Hk) as [Hd|(Hne & g & Hg & Hkey)].
    + destruct (marshalField_named _ _ _ _ _ _ _ _ _ _ Hf E)
        as [->|(Hskip & v & ->)]; [by left|].
      rewrite dom_insert_L in Hd. apply elem_of_union in Hd as [Hd|Hd]; [|by left].
      apply elem_of_singleton in Hd. subst k. right. split.
      * intros Hdash. unfold skipped in Hskip.
        by rewrite bool_decide_eq_true_2 in Hskip.
      * exists f. split; [left|done].
    + right. split; [done|]. exists g. split; [by right|done].
Qed.

(** X12: the keys of the mapping a record without anonymous fields is
    marshalled to are output keys of its fields, each the name tag of a
    field or, without one, the field's name; "-" is never among them. *)
Theorem output_keys_are_field_keys walk options ms fields groups parents
    embeddedParents dest parents' :
  Forall (fun fx => reflect.Anonymous (fst fx) = false) fields ->
  marshalObjectWith walk options (Some (reflect.StructVal ms fields))
    groups parents embeddedParents = (Return (NMap dest), parents') ->
  forall k, k ∈ dom dest ->
    k <> "-" /\ exists field, field ∈ map fst fields /\ jsonTag field = k.
Proof.
  intros Hall. rewrite marshalObjectWith_walkFields.
  destruct (walkFields _ _ _ _ _ _ _ _) as [[d| | |] p] eqn:E; cbn [andThen]; try done.
  intros [= <- _] k Hk.
  destruct (walkFields_keys _ _ _ _ _ _ _ _ _ _ Hall E k Hk) as [Hd|H]; [|done].
  by rewrite dom_empty_L in Hd.
Qed.

End RecordExtras.

(** ** Sequences and mappings *)

Section SequenceExtras.
Context `{VL : VersionLib} {MS : Marshallers} {RT : Runtime}.
Implicit Types (walk : walker) (options : Options) (groups parents : groupSet).

(** The slice branch, for a slice that does not take one of the two ways
    out before it. *)
Lemma marshalValue_slice fuel options ms elems groups parents embeddedParents :
  let sl := reflect.SliceVal ms elems in
  asMarshaller (Some sl) = None -> marshalsItself (Some sl) = false ->
  marshalValue (S fuel) options (reflect.Val false sl) groups parents embeddedParents
  = andThen
      (marshalElems (marshalValue fuel) options groups embeddedParents
         (map (reflect.Val false) elems) parents)
      (fun dest parents => (Return (NSlice dest), parents)).
Proof.
  intros sl Hm Hs. subst sl. cbn [marshalValue].
  cbn [reflect.IsValid reflect.CanInterface negb orb reflect.Value_Interface].
  rewrite Hm, Hs. reflexivity.
Qed.

Lemma marshalElems_length walk options groups embeddedParents elems parents dest parents' :
  marshalElems walk options groups embeddedParents elems parents
  = (Return dest, parents') ->
  length dest = length elems.
Proof.
  revert parents dest. induction elems as [|elem rest IH]; intros parents dest; simpl.
  - by intros [= <- _].
  - destruct (walk _ _ _ _ _) as [[d| | |] p]; cbn [andThen]; try done.
    destruct (marshalElems _ _ _ _ _ _) as [[ds| | |] p'] eqn:E; cbn [andThen];
      try done.
    intros [= <- <-]. simpl. f_equal. by eapply IH.
Qed.

Lemma marshalElems_app walk options groups embeddedParents elems1 elems2 parents :
  marshalElems walk options groups embeddedParents (elems1 ++ elems2) parents
  = andThen (marshalElems walk options groups embeddedParents elems1 parents)
      (fun dest1 parents =>
         andThen (marshalElems walk options groups embeddedParents elems2 parents)
           (fun dest2 parents => (Return (dest1 ++ dest2)%list, parents))).
Proof.
  revert parents. induction elems1 as [|elem rest IH]; intros parents; simpl.
  - by destruct (marshalElems _ _ _ _ _ _) as [[]].
  - destruct (walk _ _ _ _ _) as [[d| | |] p]; cbn [andThen]; try done.
    rewrite IH.
    destruct (marshalElems walk options groups embeddedParents rest p)
      as [[ds1| | |] p1]; cbn [andThen]; try done.
    by destruct (marshalElems walk options groups embeddedParents elems2 p1)
      as [[ds2| | |] p2].
Qed.

(** X13: a slice is marshalled to a sequence of the same length -- an
    empty or nil slice to the empty sequence, not to nil. *)
Theorem slice_keeps_its_length fuel options ms elems groups parents embeddedParents
    n parents' :
  let sl := reflect.SliceVal ms elems in
  asMarshaller (Some sl) = None -> marshalsItself (Some sl) = false ->
  marshalValue (S fuel) options (reflect.Val false sl) groups parents embeddedParents
  = (Return n, parents') ->
  exists dest, n = NSlice dest /\ length dest = length elems.
Proof.
  intros sl Hm Hs. subst sl. rewrite marshalValue_slice by done.
  destruct (marshalElems _ _ _ _ _ _) as [[dest| | |] p] eqn:E; cbn [andThen]; try done.
  intros [= <- _]. exists dest. split; [done|].
  apply marshalElems_length in E. by rewrite length_map in E.
Qed.

(** X14: the slice loop stops at the first element, in order, whose walk
    does not return normally: the call on the slice ends as the call on
    that element ended, with its error or its panic, whatever the elements
    after it hold. *)
Theorem slice_stops_at_first_failure fuel options ms pre x post groups parents
    embeddedParents dest p :
  let sl := reflect.SliceVal ms (pre ++ x :: post) in
  asMarshaller (Some sl) = None -> marshalsItself (Some sl) = false ->
  marshalElems (marshalValue fuel) options groups embeddedParents
    (map (reflect.Val false) pre) parents = (Return dest, p) ->
  (forall e p',
     marshalValue fuel options (reflect.Val false x) groups p embeddedParents
     = (Fail e, p') ->
     marshalValue (S fuel) options (reflect.Val false sl) groups parents embeddedParents
     = (Fail e, p'))
  /\ (forall why p',
        marshalValue fuel options (reflect.Val false x) groups p embeddedParents
        = (Panic why, p') ->
        marshalValue (S fuel) options (reflect.Val false sl) groups parents
          embeddedParents
        = (Panic why, p')).
Proof.
  intros sl Hm Hs Hpre. subst sl. rewrite marshalValue_slice by done.
  rewrite map_app, marshalElems_app, Hpre. cbn [andThen map marshalElems].
  split; intros o p' Hx; by rewrite Hx.
Qed.

Lemma marshalEntries_keys walk options groups embeddedParents kt ro entries dest parents
    dest' parents' :
  marshalEntries walk options groups embeddedParents kt ro entries dest parents
  = (Return dest', parents') ->
  forall k, k ∈ dom dest' <-> k ∈ dom dest \/ In (reflect.PStr k) (map fst entries).
Proof.
  revert dest parents. induction entries as [|[key x] rest IH]; intros dest parents; simpl.
  - intros [= <- _] k. tauto.
  - destruct (walk _ _ _ _ _) as [[d| | |] p]; cbn [andThen]; try done.
    destruct (keyString kt key) as [s|] eqn:Ekey; [|done].
    apply keyString_PStr in Ekey. subst key.
    intros Hrest k. rewrite (IH _ _ Hrest k), dom_insert_L, elem_of_union,
      elem_of_singleton.
    split.
    + intros [[->|H]|H]; auto.
    + intros [H|[[= ->]|H]]; auto.
Qed.

(** X15: a string-keyed mapping is marshalled to nil when it has no entry
    and otherwise to a mapping with exactly its keys. *)
Theorem mapping_keeps_its_keys fuel options v m kt entries groups parents
    embeddedParents n parents' :
  keyedMapping v m kt entries ->
  marshalValue (S fuel) options v groups parents embeddedParents = (Return n, parents') ->
  (entries = [] /\ n = NNil)
  \/ (entries <> []
      /\ exists dest, n = NMap dest
         /\ forall k, k ∈ dom dest <-> In (reflect.PStr k) (map fst entries)).
Proof.
  intros (-> & [ms ->] & Hm & Hs). rewrite marshalValue_mapping by done.
  pose proof (MapKeys_Permutation entries) as HP.
  destruct (MapKeys entries) as [|e l] eqn:E.
  - intros [= <- _]. left. split; [|done].
    apply Permutation_nil. by symmetry.
  - destruct (negb _); [done|].
    destruct (marshalEntries _ _ _ _ _ _ _ _ _) as [[dest| | |] p] eqn:Eent;
      cbn [andThen]; try done.
    intros [= <- _]. right. split.
    { intros ->. symmetry in HP. by apply Permutation_nil in HP. }
    exists dest. split; [done|]. intros k.
    rewrite (marshalEntries_keys _ _ _ _ _ _ _ _ _ _ _ Eent k), dom_empty_L.
    split.
    + intros [H|H]; [by apply elem_of_empty in H|].
      eapply Permutation_in; [|exact H]. by apply Permutation_map.
    + intros H. right. eapply Permutation_in; [|exact H].
      apply Permutation_map. by symmetry.
Qed.

(** X16: a mapping with an entry whose key type has kind string but is
    not the predeclared [string] (a defined type such as [type K string])
    is never marshalled: the call does not return a node. *)
Theorem defined_string_keys_never_return fuel options v m kt entries groups parents
    embeddedParents :
  keyedMapping v m kt entries ->
  entries <> [] ->
  reflect.keyIsString kt = false ->
  forall n, fst (marshalValue (S fuel) options v groups parents embeddedParents)
            <> Return n.
Proof.
  intros (-> & [ms ->] & Hm & Hs) Hne Hkey n. rewrite marshalValue_mapping by done.
  destruct (MapKeys_cons entries Hne) as ([key x] & rest & ->).
  destruct (negb _); [done|]. cbn [marshalEntries].
  destruct (marshalValue fuel _ _ _ _ _) as [[d| | |] p]; cbn [andThen]; try done.
  assert (keyString kt key = None) as ->; [|done].
  unfold keyString. destruct key; try done. by rewrite Hkey.
Qed.

Lemma entries_pure_first_failure (f : reflect.GoValue -> outcome Node) kt entries e :
  Forall (fun kx => f (snd kx) = Fail e
                    \/ ((exists d, f (snd kx) = Return d)
                        /\ exists k, keyString kt (fst kx) = Some k)) entries ->
  Exists (fun kx => f (snd kx) = Fail e) entries ->
  forall dest, entries_pure f kt entries dest = Fail e.
Proof.
  induction 1 as [|[key x] rest Hx Hrest IH]; intros Hex dest.
  - by apply Exists_nil in Hex.
  - simpl in *. destruct Hx as [Hx|[[d Hd] [k Hk]]]; [by rewrite Hx|].
    rewrite Hd, Hk. apply IH. apply Exists_cons in Hex as [Hex|Hex]; [|done].
    simpl in Hex. congruence.
Qed.

(** X17: when the entries of a string-keyed mapping that fail all fail
    with one error, the call on the mapping returns that error, whatever
    the order in which the runtime hands out the keys. *)
Theorem one_error_whatever_the_order fuel options v m kt entries groups parents
    embeddedParents e :
  in_range parents ->
  keyedMapping v m kt entries ->
  reflect.keyKind kt = reflect.String ->
  let f x := fst (marshalValue fuel options (reflect.Val false x) groups parents
                    embeddedParents) in
  Forall (fun kx => f (snd kx) = Fail e
                    \/ ((exists d, f (snd kx) = Return d)
                        /\ exists k, keyString kt (fst kx) = Some k)) entries ->
  Exists (fun kx => f (snd kx) = Fail e) entries ->
  fst (marshalValue (S fuel) options v groups parents embeddedParents) = Fail e.
Proof.
  intros Hin (-> & [ms ->] & Hm & Hs) Hkind f Hall Hex.
  rewrite marshalValue_mapping by done.
  pose proof (MapKeys_Permutation entries) as HP.
  destruct (MapKeys entries) as [|e0 l] eqn:E.
  { apply Permutation_nil in HP. subst entries. by apply Exists_nil in Hex. }
  rewrite bool_decide_eq_true_2 by done. cbn [negb].
  destruct (marshalEntries _ _ _ _ _ _ _ _ _) as [o p] eqn:Eent.
  assert (o = Fail e) as ->; [|done].
  change o with (fst (o, p)). rewrite <- Eent.
  rewrite (marshalEntries_pure _ _ _ _ _ _ _ _ parents parents);
    [|apply marshalValue_steady|apply marshalValue_restores|by apply same_view_refl].
  apply entries_pure_first_failure.
  - by rewrite HP.
  - by rewrite HP.
Qed.

End SequenceExtras.

(** ** Pointers, nil values, and the unfiltered mode *)

Section PointerExtras.
Context `{VL : VersionLib} {MS : Marshallers} {RT : Runtime}.
Implicit Types (walk : walker) (options : Options) (groups parents : groupSet).

(** X18: a nil met as a slice element or a map value makes the call
    panic: a nil interface value, and a nil pointer whose type implements
    none of the interfaces [marshalValue] tests for. *)
Theorem nil_elements_panic fuel options ms elem groups parents embeddedParents :
  marshalValue (S fuel) options (reflect.Val false (reflect.IfaceVal None))
    groups parents embeddedParents = (Panic ZeroValueType, parents)
  /\ (asMarshaller (Some (reflect.NilPointer ms elem)) = None ->
      marshalsItself (Some (reflect.NilPointer ms elem)) = false ->
      marshalValue (S fuel) options (reflect.Val false (reflect.NilPointer ms elem))
        groups parents embeddedParents = (Panic ZeroValueInterface, parents)).
Proof.
  split; [done|]. intros Hm Hs. cbn [marshalValue].
  cbn [reflect.IsValid reflect.CanInterface negb orb reflect.Value_Interface].
  by rewrite Hm, Hs.
Qed.

(** X19: a nil pointer in a field of a record does not: the field, when
    it is not skipped and is visible, is stored with the value nil,
    whatever the pointer type implements. *)
Theorem nil_pointer_field_is_null fuel options groups embeddedParents field ro ms elem
    dest parents s u :
  let val := reflect.Val ro (reflect.NilPointer ms elem) in
  skipped field val = false ->
  shouldShowFromSince options field = Return s ->
  shouldShowFromUntil options field = Return u ->
  let names := groupNames options parents field in
  let shown := shouldShowFromGroup options groups parents embeddedParents field false
               && s && u in
  marshalField (marshalValue (S fuel)) options groups embeddedParents field val
    dest parents
  = (Return (if shown then <[jsonTag field := NNil]> dest else dest),
     popParents options (pushParents options parents false names) false names).
Proof.
  intros val Hskip Hs Hu names shown.
  rewrite (marshalField_walks _ options groups embeddedParents field val dest parents
             s u Hskip Hs Hu).
  subst val. unfold followPointer, isEmbeddedField.
  cbn [reflect.Value_Kind reflect.kindOf reflect.Elem].
  rewrite (bool_decide_eq_true_2 (reflect.Ptr = reflect.Ptr)) by done.
  cbn [reflect.Value_Kind]. rewrite bool_decide_eq_false_2 by done.
  rewrite andb_false_r. cbn [marshalValue reflect.IsValid negb orb].
  fold names shown. unfold store. by destruct shown.
Qed.

Lemma checkGroups_unfiltered options :
  Groups options = [] -> OutputFieldsWithNoGroup options = false ->
  checkGroups options ∅ = false.
Proof.
  intros HG HO. unfold checkGroups, len. rewrite HG, HO, map_size_empty. simpl.
  by rewrite andb_false_r.
Qed.

Lemma andThen_empty {A B} (r : run A) (k : A -> groupSet -> run B) :
  (returned (fst r) -> snd r = ∅) ->
  (forall a, returned (fst (k a ∅)) -> snd (k a ∅) = ∅) ->
  returned (fst (andThen r k)) -> snd (andThen r k) = ∅.
Proof.
  intros Hr Hk. destruct r as [[a| | |] p]; simpl in *; try done;
    try (intros _; by apply Hr).
  rewrite (Hr I). apply Hk.
Qed.

Lemma marshalField_keeps_empty walk options groups embeddedParents field val dest :
  Groups options = [] -> OutputFieldsWithNoGroup options = false ->
  keeps_empty options walk ->
  returned (fst (marshalField walk options groups embeddedParents field val dest ∅)) ->
  snd (marshalField walk options groups embeddedParents field val dest ∅) = ∅.
Proof.
  intros HG HO Hwalk. unfold marshalField. destruct (skipped field val); [done|].
  rewrite (groupNames_unchecked options ∅ field) by (by apply checkGroups_unfiltered).
  destruct (shouldShowFromSince options field) as [s| | |]; cbn [andThen]; try done.
  destruct (shouldShowFromUntil options field) as [u| | |]; cbn [andThen]; try done.
  assert (forall emb, pushParents options ∅ emb [] = ∅) as Hpush.
  { intros emb. unfold pushParents. by destruct (_ || _). }
  rewrite Hpush.
  pose proof (Hwalk (followPointer val) groups
                (isEmbeddedField field (followPointer val))) as Hcall.
  destruct (walk _ _ _ _ _) as [[v| | |] p]; simpl in *; try done.
  - intros _. rewrite (Hcall I). unfold popParents. by destruct (_ || _).
  - intros _. rewrite (Hcall I). unfold popParents. by destruct (_ || _).
Qed.

Lemma marshalFields_keeps_empty walk options groups embeddedParents v fields i dest :
  Groups options = [] -> OutputFieldsWithNoGroup options = false ->
  keeps_empty options walk ->
  returned (fst (marshalFields walk options groups embeddedParents v fields i dest ∅)) ->
  snd (marshalFields walk options groups embeddedParents v fields i dest ∅) = ∅.
Proof.
  intros HG HO Hwalk. revert i dest.
  induction fields as [|field rest IH]; intros i dest; simpl; [done|].
  destruct (reflect.Field v i) as [val|]; [|done].
  apply andThen_empty; [by apply marshalField_keeps_empty|]. intros d. apply IH.
Qed.

Lemma marshalObjectWith_keeps_empty walk options data groups embeddedParents :
  Groups options = [] -> OutputFieldsWithNoGroup options = false ->
  keeps_empty options walk ->
  returned (fst (marshalObjectWith walk options data groups ∅ embeddedParents)) ->
  snd (marshalObjectWith walk options data groups ∅ embeddedParents) = ∅.
Proof.
  intros HG HO Hwalk. unfold marshalObjectWith.
  destruct (reflect.Value_Type _) as [t|]; [|done].
  destruct (negb _); [apply Hwalk|].
  apply andThen_empty; [by apply marshalFields_keeps_empty|]. done.
Qed.

Lemma marshalElems_keeps_empty walk options groups embeddedParents elems :
  keeps_empty options walk ->
  returned (fst (marshalElems walk options groups embeddedParents elems ∅)) ->
  snd (marshalElems walk options groups embeddedParents elems ∅) = ∅.
Proof.
  intros Hwalk. induction elems as [|elem rest IH]; simpl; [done|].
  apply andThen_empty; [apply Hwalk|]. intros d.
  apply andThen_empty; [apply IH|]. done.
Qed.

Lemma marshalEntries_keeps_empty walk options groups embeddedParents kt ro entries dest :
  keeps_empty options walk ->
  returned (fst (marshalEntries walk options groups embeddedParents kt ro entries dest ∅)) ->
  snd (marshalEntries walk options groups embeddedParents kt ro entries dest ∅) = ∅.
Proof.
  intros Hwalk. revert dest. induction entries as [|[key x] rest IH]; intros dest; simpl;
    [done|].
  apply andThen_empty; [apply Hwalk|]. intros d.
  destruct (keyString kt key); [apply IH|done].
Qed.

Lemma marshalValue_keeps_empty fuel options :
  Groups options = [] -> OutputFieldsWithNoGroup options = false ->
  keeps_empty options (marshalValue fuel).
Proof.
  intros HG HO. induction fuel as [|fuel IH]; intros v groups embeddedParents;
    simpl; [done|].
  destruct (negb (reflect.IsValid v) || negb (reflect.CanInterface v)); [done|].
  destruct (reflect.Value_Interface v) as [val|]; [|done].
  destruct (asMarshaller val); [done|].
  destruct (marshalsItself val); [done|].
  match goal with |- context [match ?x with Some _ => _ | None => _ end] =>
    destruct x as [[[v' val'] k]|] end; [|done].
  destruct (_ || _); [by apply marshalObjectWith_keeps_empty|].
  destruct (bool_decide (k = reflect.Slice)).
  { apply andThen_empty; [by apply marshalElems_keeps_empty|]. done. }
  destruct (bool_decide (k = reflect.Map)); [|done].
  destruct v' as [|ro []]; try done.
  destruct (MapKeys entries); [done|]. destruct (negb _); [done|].
  apply andThen_empty; [by apply marshalEntries_keeps_empty|]. done.
Qed.

(** X20: the unfiltered mode lasts for the whole walk.  With no group
    activated and [OutputFieldsWithNoGroup] off, a call entered with an
    empty parents set hands the set back empty, so at every depth every
    field is group-visible and nothing is pushed for it, whatever its
    groups tag says and also with [InheritGroups] on. *)
Theorem unfiltered_mode_lasts fuel options data groups embeddedParents :
  Groups options = [] -> OutputFieldsWithNoGroup options = false ->
  let r := marshalObject fuel options data groups ∅ embeddedParents in
  (returned (fst r) -> snd r = ∅)
  /\ (forall field emb embeddedParents',
        shouldShowFromGroup options groups ∅ embeddedParents' field emb = true
        /\ pushParents options ∅ emb (groupNames options ∅ field) = ∅).
Proof.
  intros HG HO r. split.
  - apply marshalObjectWith_keeps_empty; try done. by apply marshalValue_keeps_empty.
  - intros field emb ep'. unfold shouldShowFromGroup, groupNames.
    rewrite (checkGroups_unfiltered options HG HO). split; [done|].
    unfold pushParents. by destruct (_ || _).
Qed.

End PointerExtras.

(** ** The options, as their comments describe them *)

Section OptionsExtras.
Context `{VL : VersionLib}.
Implicit Types (options : Options) (groups parents : groupSet).

(** X21: with [OutputFieldsWithNoGroup] set (and [InheritGroups] off), a
    field that is not an embedded record, in a record that is not one
    either, is group-visible iff it has no groups tag or one of its groups
    is activated: a field whose groups all miss the activated ones is
    still hidden. *)
Theorem ungrouped_fields_are_shown options groups parents field :
  OutputFieldsWithNoGroup options = true ->
  InheritGroups options = false ->
  shouldShowFromGroup options groups parents false field false = true
  <-> declaredGroups field = [] \/ intersects (declaredGroups field) groups.
Proof.
  intros HO HI. unfold shouldShowFromGroup.
  assert (checkGroups options parents = true) as ->.
  { apply checkGroups_policy. by right; right. }
  rewrite HI, HO. cbn [andb]. rewrite !orb_false_r, andb_true_r, orb_true_iff.
  rewrite containsAny_intersects, length_zero_nil. tauto.
Qed.

(** X22: with [InheritGroups] set, a group on a field propagates into the
    field's value: when the field declares one of [options.Groups], that
    group is active in the parents set the loop hands to the recursion,
    and under that set every field is group-visible, whatever its own
    tag. *)
Theorem inherited_group_reaches_inner_fields options groups parents field group
    inner embeddedParents emb emb' :
  InheritGroups options = true ->
  in_range parents ->
  group ∈ Groups options ->
  group ∈ declaredGroups field ->
  0 <= count parents group ->
  count parents group + occurrences group (declaredGroups field) < 2 ^ 63 ->
  let parents' := pushParents options parents emb (groupNames options parents field) in
  active parents' group
  /\ shouldShowFromGroup options groups parents' embeddedParents inner emb' = true.
Proof.
  intros HI Hin HG Hdecl Hpos Hup parents'.
  assert (checkGroups options parents = true) as Hcheck.
  { apply checkGroups_policy. left. intros Hnil. rewrite Hnil in HG.
    by apply elem_of_nil in HG. }
  assert (parents' = incrementGroups parents (declaredGroups field)) as ->.
  { subst parents'. unfold pushParents, groupNames. by rewrite HI, Hcheck. }
  assert (active (incrementGroups parents (declaredGroups field)) group) as Hactive.
  { unfold active. rewrite count_incrementGroups by done.
    apply occurrences_positive in Hdecl.
    rewrite wrap_int_small; [lia|]. pose proof (in_range_count parents group Hin). lia. }
  split; [done|]. unfold shouldShowFromGroup.
  rewrite (checkGroups_incrementGroups options parents _ Hcheck), HI.
  assert (containsAny (incrementGroups parents (declaredGroups field)) (Groups options)
          = true) as ->.
  { apply containsAny_intersects. by exists group. }
  by rewrite orb_true_r.
Qed.

End OptionsExtras.

(** ** The further properties at concrete inputs *)

Lemma push_and_pop_count_occurrences_witness :
  in_range ∅ /\ count (incrementGroups ∅ ["a"; "b"; "a"]) "a" = 2
  /\ count (decrementGroups ∅ ["a"; "b"; "a"]) "a" = -2.
Proof.
  destruct (push_and_pop_count_occurrences ∅ ["a"; "b"; "a"] "a" in_range_empty)
    as (Hpush & Hpop & _).
  split; [apply in_range_empty|]. split.
  - rewrite Hpush; reflexivity.
  - rewrite Hpop; [reflexivity|]. vm_compute. discriminate.
Defined.

Lemma push_and_pop_commute_witness :
  in_range ∅
  /\ count (decrementGroups (incrementGroups ∅ ["a"; "b"]) ["b"; "c"]) "b"
     = count (incrementGroups (decrementGroups ∅ ["b"; "c"]) ["a"; "b"]) "b".
Proof.
  split; [apply in_range_empty|].
  exact (push_and_pop_commute ∅ ["a"; "b"] ["b"; "c"] "b" in_range_empty).
Defined.

Lemma seeded_set_contains_its_names_witness :
  Z.of_nat (length ["admin"; "admin"]) < 2 ^ 63
  /\ (contains (incrementGroups ∅ ["admin"; "admin"]) "admin" = true
      <-> "admin" ∈ ["admin"; "admin"]).
Proof.
  split; [reflexivity|].
  apply (seeded_set_contains_its_names ["admin"; "admin"] "admin"). reflexivity.
Defined.

Lemma seeded_set_agrees_with_listContains_witness :
  Z.of_nat (length ["admin"; "staff"]) < 2 ^ 63
  /\ containsAny (incrementGroups ∅ ["admin"; "staff"]) ["guest"; "staff"]
     = sheriff.listContains ["guest"; "staff"] ["admin"; "staff"].
Proof.
  split; [reflexivity|].
  apply (seeded_set_agrees_with_listContains ["guest"; "staff"] ["admin"; "staff"]).
  reflexivity.
Defined.

Lemma skipped_field_leaves_no_trace_witness :
  jsonTag (fld "B" [("json", "-")]) = "-"
  /\ marshalObjectWith (marshalValue (RT:=listedOrder) 1) ungroupedToo
       (Some scenarioSkip) (activation ungroupedToo) ∅ false
     = marshalObjectWith (marshalValue (RT:=listedOrder) 1) ungroupedToo
         (Some (record [(fld "A" [("groups", "admin")], str "x"); (fld "C" [], str "y")]))
         (activation ungroupedToo) ∅ false.
Proof.
  split; [reflexivity|].
  apply (skipped_field_leaves_no_trace (marshalValue (RT:=listedOrder) 1) ungroupedToo
           plain [(fld "A" [("groups", "admin")], str "x")]
           (fld "B" [("json", "-")]) (int 0) [(fld "C" [], str "y")]).
  left. reflexivity.
Defined.

Lemma output_keys_are_field_keys_witness :
  marshalObjectWith (marshalValue (RT:=listedOrder) 1) ungroupedToo (Some scenarioSkip)
    (activation ungroupedToo) ∅ false
  = (Return (NMap (<["A" := NVal (str "x")]> {[ "C" := NVal (str "y") ]})), ∅)
  /\ forall k, k ∈ dom (<["A" := NVal (str "x")]> ({[ "C" := NVal (str "y") ]}
                                                    : gmap string Node)) ->
       k <> "-" /\ exists field,
         field ∈ map fst [ (fld "A" [("groups", "admin")], str "x");
                           (fld "B" [("json", "-")], int 0);
                           (fld "C" [], str "y") ]
         /\ jsonTag field = k.
Proof.
  assert (marshalObjectWith (marshalValue (RT:=listedOrder) 1) ungroupedToo
            (Some scenarioSkip) (activation ungroupedToo) ∅ false
          = (Return (NMap (<["A" := NVal (str "x")]> {[ "C" := NVal (str "y") ]})), ∅))
    as Hrun by (vm_compute; reflexivity).
  split; [exact Hrun|].
  apply (output_keys_are_field_keys (marshalValue (RT:=listedOrder) 1) ungroupedToo plain
           _ (activation ungroupedToo) ∅ false _ ∅); [|exact Hrun].
  repeat constructor.
Defined.

Lemma slice_keeps_its_length_witness :
  exists dest,
    NSlice [NVal (int 1); NVal (int 2); NVal (int 3)] = NSlice dest
    /\ length dest = length [int 1; int 2; int 3].
Proof.
  apply (slice_keeps_its_length (RT:=listedOrder) 1 unfiltered plain
           [int 1; int 2; int 3] ∅ ∅ false _ ∅ eq_refl eq_refl).
  vm_compute. reflexivity.
Defined.

Lemma slice_stops_at_first_failure_witness :
  marshalValue (RT:=listedOrder) 2 unfiltered (reflect.Val false mixed) ∅ ∅ false
  = (Fail (MarshalInvalidTypeError reflect.Int (Some ledger)), ∅).
Proof.
  destruct (slice_stops_at_first_failure (RT:=listedOrder) 1 unfiltered plain
              [int 1] ledger [int 3] ∅ ∅ false [NVal (int 1)] ∅
              eq_refl eq_refl eq_refl) as [H _].
  apply H. reflexivity.
Defined.

Lemma mapping_keeps_its_keys_witness :
  keyedMapping (reflect.Val false twoEntries) twoEntries stringKeys
    [(reflect.PStr "a", int 1); (reflect.PStr "b", int 2)]
  /\ exists dest,
       NMap (<["a" := NVal (int 1)]> {[ "b" := NVal (int 2) ]}) = NMap dest
       /\ forall k, k ∈ dom dest
                    <-> In (reflect.PStr k)
                          (map fst [(reflect.PStr "a", int 1); (reflect.PStr "b", int 2)]).
Proof.
  assert (keyedMapping (reflect.Val false twoEntries) twoEntries stringKeys
            [(reflect.PStr "a", int 1); (reflect.PStr "b", int 2)]) as Hmap.
  { split; [reflexivity|]. split; [by exists plain|]. split; reflexivity. }
  split; [exact Hmap|].
  destruct (mapping_keeps_its_keys (RT:=reverseOrder) 1 unfiltered _ _ _ _ ∅ ∅ false
              (NMap (<["a" := NVal (int 1)]> {[ "b" := NVal (int 2) ]})) ∅ Hmap)
    as [[Hnil _]|[_ H]].
  - vm_compute. reflexivity.
  - discriminate Hnil.
  - exact H.
Defined.

Lemma defined_string_keys_never_return_witness :
  marshalValue (RT:=listedOrder) 2 unfiltered (reflect.Val false labels) ∅ ∅ false
  = (Panic KeyNotString, ∅)
  /\ forall n, fst (marshalValue (RT:=listedOrder) 2 unfiltered (reflect.Val false labels)
                      ∅ ∅ false) <> Return n.
Proof.
  split; [reflexivity|].
  apply (defined_string_keys_never_return (RT:=listedOrder) 1 unfiltered
           (reflect.Val false labels) labels definedStringKeys
           [(reflect.PStr "a", int 1)]); [|discriminate|reflexivity].
  split; [reflexivity|]. split; [by exists plain|]. split; reflexivity.
Defined.

Lemma one_error_whatever_the_order_witness :
  fst (marshalValue (RT:=reverseOrder) 4 unfiltered (reflect.Val false oneFailure)
         ∅ ∅ false)
  = Fail (ErrorString "Malformed version: x").
Proof.
  apply (one_error_whatever_the_order (RT:=reverseOrder) 3 unfiltered
           (reflect.Val false oneFailure) oneFailure stringKeys
           [ (reflect.PStr "a", int 1);
             (reflect.PStr "b",
              reflect.IfaceVal (Some (record [(fld "X" [("since", "x")], int 1)])));
             (reflect.PStr "c", int 3) ]
           ∅ ∅ false (ErrorString "Malformed version: x") in_range_empty).
  - split; [reflexivity|]. split; [by exists plain|]. split; reflexivity.
  - reflexivity.
  - constructor; [|constructor; [|constructor; [|constructor]]].
    + right. split; [by exists (NVal (int 1))|by exists "a"].
    + left. reflexivity.
    + right. split; [by exists (NVal (int 3))|by exists "c"].
  - apply Exists_cons. right. apply Exists_cons. left. reflexivity.
Defined.

Lemma nil_pointer_field_is_null_witness :
  marshalField (marshalValue (RT:=listedOrder) 1) unfiltered ∅ false (fld "P" [])
    (reflect.Val false nilInt) ∅ ∅
  = (Return {[ "P" := NNil ]}, ∅).
Proof.
  rewrite (nil_pointer_field_is_null (RT:=listedOrder) 0 unfiltered ∅ false (fld "P" [])
             false plain (reflect.OtherType reflect.Int) ∅ ∅ true true
             eq_refl eq_refl eq_refl).
  vm_compute. reflexivity.
Defined.

Lemma unfiltered_mode_lasts_witness :
  Groups inheritOnly = [] /\ OutputFieldsWithNoGroup inheritOnly = false
  /\ snd (marshalObject (RT:=listedOrder) 3 inheritOnly (Some nested) ∅ ∅ false) = ∅.
Proof.
  split; [reflexivity|]. split; [reflexivity|].
  destruct (unfiltered_mode_lasts (RT:=listedOrder) 3 inheritOnly (Some nested) ∅ false
              eq_refl eq_refl) as [H _].
  apply H. exact I.
Defined.

Lemma ungrouped_fields_are_shown_witness :
  shouldShowFromGroup ungroupedToo (activation ungroupedToo) ∅ false (fld "C" []) false
  = true
  /\ shouldShowFromGroup ungroupedToo (activation ungroupedToo) ∅ false
       (fld "S" [("groups", "staff")]) false = false.
Proof.
  split.
  - apply (ungrouped_fields_are_shown ungroupedToo (activation ungroupedToo) ∅
             (fld "C" []) eq_refl eq_refl).
    left. reflexivity.
  - reflexivity.
Defined.

Lemma inherited_group_reaches_inner_fields_witness :
  shouldShowFromGroup inheritA (activation inheritA)
    (pushParents inheritA ∅ false (groupNames inheritA ∅ innerField)) false
    (fld "X" []) false = true.
Proof.
  apply (inherited_group_reaches_inner_fields inheritA (activation inheritA) ∅ innerField
           "a" (fld "X" []) false false false eq_refl in_range_empty).
  - left.
  - left.
  - reflexivity.
  - reflexivity.
Defined.

Lemma record_is_marshalled_to_a_mapping_witness :
  Marshal (RT:=listedOrder) 2 ungroupedToo (Some scenarioSkip)
  = Return (NMap (<["A" := NVal (str "x")]> {[ "C" := NVal (str "y") ]}))
  /\ exists dest,
       NMap (<["A" := NVal (str "x")]> {[ "C" := NVal (str "y") ]}) = NMap dest.
Proof.
  assert (Marshal (RT:=listedOrder) 2 ungroupedToo (Some scenarioSkip)
          = Return (NMap (<["A" := NVal (str "x")]> {[ "C" := NVal (str "y") ]})))
    as Hrun by (vm_compute; reflexivity).
  split; [exact Hrun|].
  destruct (record_is_marshalled_to_a_mapping (RT:=listedOrder) 2 ungroupedToo plain plain
              [ (fld "A" [("groups", "admin")], str "x");
                (fld "B" [("json", "-")], int 0);
                (fld "C" [], str "y") ]) as [H _].
  exact (H _ Hrun).
Defined.

Lemma nil_inputs_witness :
  Marshal (RT:=listedOrder) 1 unfiltered
    (Some (reflect.NilPointer plain (reflect.StructType [fld "A" []])))
  = Panic ZeroValueField
  /\ Marshal (RT:=listedOrder) 1 unfiltered
       (Some (reflect.NilPointer plain (reflect.StructType []))) = Return (NMap ∅)
  /\ Marshal (RT:=listedOrder) 1 unfiltered (Some nilInt) = Return NNil.
Proof.
  split; [|split].
  - destruct (nil_inputs (RT:=listedOrder) 1 unfiltered plain
                (reflect.StructType [fld "A" []])) as (_ & H & _).
    apply H; [reflexivity|discriminate].
  - destruct (nil_inputs (RT:=listedOrder) 1 unfiltered plain (reflect.StructType []))
      as (_ & _ & H & _).
    apply H; reflexivity.
  - destruct (nil_inputs (RT:=listedOrder) 0 unfiltered plain
                (reflect.OtherType reflect.Int)) as (_ & _ & _ & H).
    apply H. discriminate.
Defined.

Lemma nil_elements_panic_witness :
  marshalValue (RT:=listedOrder) 1 unfiltered (reflect.Val false nilInt) ∅ ∅ false
  = (Panic ZeroValueInterface, ∅).
Proof.
  destruct (nil_elements_panic (RT:=listedOrder) 0 unfiltered plain
              (reflect.OtherType reflect.Int) ∅ ∅ false) as [_ H].
  apply H; reflexivity.
Defined.
